(** * gif-creator: sprite-sheet addressing, chroma key, export, preview

    A shallow embedding of the sprite-sheet core of the application:

    - [src/types.ts]            the configuration record;
    - [src/App.tsx]             [updateConfig] and the rows / cols inputs,
                                [handleAutoDetect], the viewport and node
                                handlers, the layout effect and
                                [renderConnections];
    - [src/utils/gifBuilder.ts] [applyChromaKey] and [generateGif];
    - the generation service    [retryOperation], [determineAspectRatio], the
                                cleaning of data URLs and the image of a
                                response;
    - [PreviewPlayer]           the requestAnimationFrame playback loop;
    - [SpriteCanvas]            [renderGridOverlay];
    - [ConnectionLine]          the control points of the curve.

    Numbers.  The configuration fields and the image dimensions are the
    results of [parseInt] and of [naturalWidth] / [naturalHeight]: they
    are integers, modelled as [Z].  Quotients that the code leaves
    fractional ([dimensions.width / config.cols], [1000 / config.fps],
    animation timestamps) are modelled as exact rationals [Q].  A division
    by zero, which JavaScript answers with [NaN] or [Infinity], is outside
    the model: the theorems on grids, export and preview assume the
    divisors ([rows], [cols], [fps], [totalFrames]) to be at least 1.
    Screen coordinates, zoom factors and aspect ratios are rationals too, and
    decimal constants such as [0.1] and [1.3333] stand for their exact
    values.

    The source computes these quotients in IEEE doubles, which round: the
    two readings agree where the quotient is exact (the divisor divides, as
    with [fps] dividing 1000 or [cols] dividing the width), and may differ
    in the last bit elsewhere ([100 / 6] six times over is not 100 in
    doubles, and [500 / (1000 / 30)] falls just below 15).  The statements
    below that need the value of a quotient, and not only the expression
    that computes it, are therefore given under a divisibility hypothesis.
    What a canvas keeps of a fractional size is an integer, the size
    truncated: [JS.to_canvas_size]. *)

From Stdlib Require Import String Ascii ZArith QArith Qround Qabs Qminmax.
From Stdlib Require Import List Bool Lia Lqa Permutation.
Import ListNotations.

Local Open Scope Z_scope.

(** ** JavaScript arithmetic on integers *)

Module JS.

(** [a % b]: the remainder takes the sign of the dividend. *)
Definition rem (a b : Z) : Z := Z.rem a b.

(** [Math.floor(a / b)] for integers [a] and [b <> 0]. *)
Definition floor_div (a b : Z) : Z := a / b.

(** [Math.floor(x)] on a rational. *)
Definition floor (x : Q) : Z := Qfloor x.

(** [Math.round(x)]: the integer nearest to [x], ties towards
    [+Infinity]. *)
Definition round (x : Q) : Z := Qfloor (x + (1 # 2))%Q.

(** [Math.abs] on integers. *)
Definition abs (a : Z) : Z := Z.abs a.

(** [x || 1] on the result of [parseInt]: [None] stands for [NaN];
    [NaN] and [0] are the falsy numbers. *)
Definition or_one (x : option Z) : Z :=
  match x with
  | None => 1
  | Some v => if v =? 0 then 1 else v
  end.

(** The integer that [canvas.width = x] leaves in [canvas.width]: the
    attribute is an [unsigned long], and the conversion drops the fractional
    part of [x], towards zero.  Sizes of 2^31 and more, which no canvas
    takes, are outside the model. *)
Definition to_canvas_size (x : Q) : Z :=
  if Qle_bool 0 x then Qfloor x else Qceiling x.

(** The integers [0, 1, ..., n-1] visited by
    [for (let i = 0; i < n; i++)] and by
    [Array.from({ length: n }).map((_, i) => ...)]. *)
Definition range (n : Z) : list Z := map Z.of_nat (seq 0 (Z.to_nat n)).

End JS.

(** ** src/types.ts *)

Inductive Direction : Set :=
| DirRow      (* 'row': horizontal, the default *)
| DirColumn.  (* 'column': vertical *)

Record SpriteConfig : Set := mkConfig {
  rows : Z;
  cols : Z;
  totalFrames : Z;
  fps : Z;
  scale : Z;
  transparent : option string;
  autoTransparent : bool;
  direction : Direction
}.

Record ImageDimensions : Set := mkDims {
  width : Z;
  height : Z
}.

(** [INITIAL_CONFIG] of src/App.tsx. *)
Definition INITIAL_CONFIG : SpriteConfig :=
  {| rows := 4; cols := 4; totalFrames := 16; fps := 12; scale := 1;
     transparent := None; autoTransparent := true; direction := DirRow |}.

(** The invariant the data model asks of a grid. *)
Definition GridInvariant (c : SpriteConfig) : Prop :=
  1 <= rows c /\ 1 <= cols c /\ 1 <= totalFrames c <= rows c * cols c.

(** ** Grid addressing, as each consumer computes it *)

(** The exporter (generateGif, the head of its loop body) and the preview
    player (animate) turn a sequence index into a cell with the same
    code. *)
Definition cellOfIndex (config : SpriteConfig) (i : Z) : Z * Z :=
  match direction config with
  | DirColumn =>
      let row := JS.rem i (rows config) in
      let col := JS.floor_div i (rows config) in
      (row, col)
  | DirRow =>
      let col := JS.rem i (cols config) in
      let row := JS.floor_div i (cols config) in
      (row, col)
  end.

(** The grid overlay turns a visual position into a sequence index. *)
Definition sequenceIndexOf (config : SpriteConfig) (visualRow visualCol : Z) : Z :=
  match direction config with
  | DirColumn => visualCol * rows config + visualRow
  | DirRow => visualRow * cols config + visualCol
  end.

(** ** src/App.tsx: updateConfig *)

(** [keyof SpriteConfig]. *)
Inductive Key : Set :=
| KRows | KCols | KTotalFrames | KFps | KScale
| KTransparent | KAutoTransparent | KDirection.

(** The parameter [value] is declared [any]; every caller passes a value of
    the type the field is declared with, and so does the model. *)
Definition ValueOf (key : Key) : Set :=
  match key with
  | KRows | KCols | KTotalFrames | KFps | KScale => Z
  | KTransparent => option string
  | KAutoTransparent => bool
  | KDirection => Direction
  end.

(** [{ ...prev, [key]: value }]. *)
Definition spread (prev : SpriteConfig) (key : Key) : ValueOf key -> SpriteConfig :=
  match key return ValueOf key -> SpriteConfig with
  | KRows => fun v =>
      mkConfig v (cols prev) (totalFrames prev) (fps prev) (scale prev)
               (transparent prev) (autoTransparent prev) (direction prev)
  | KCols => fun v =>
      mkConfig (rows prev) v (totalFrames prev) (fps prev) (scale prev)
               (transparent prev) (autoTransparent prev) (direction prev)
  | KTotalFrames => fun v =>
      mkConfig (rows prev) (cols prev) v (fps prev) (scale prev)
               (transparent prev) (autoTransparent prev) (direction prev)
  | KFps => fun v =>
      mkConfig (rows prev) (cols prev) (totalFrames prev) v (scale prev)
               (transparent prev) (autoTransparent prev) (direction prev)
  | KScale => fun v =>
      mkConfig (rows prev) (cols prev) (totalFrames prev) (fps prev) v
               (transparent prev) (autoTransparent prev) (direction prev)
  | KTransparent => fun v =>
      mkConfig (rows prev) (cols prev) (totalFrames prev) (fps prev) (scale prev)
               v (autoTransparent prev) (direction prev)
  | KAutoTransparent => fun v =>
      mkConfig (rows prev) (cols prev) (totalFrames prev) (fps prev) (scale prev)
               (transparent prev) v (direction prev)
  | KDirection => fun v =>
      mkConfig (rows prev) (cols prev) (totalFrames prev) (fps prev) (scale prev)
               (transparent prev) (autoTransparent prev) v
  end.

(** [next.totalFrames = n]. *)
Definition setTotalFrames (next : SpriteConfig) (n : Z) : SpriteConfig :=
  mkConfig (rows next) (cols next) n (fps next) (scale next)
           (transparent next) (autoTransparent next) (direction next).

(** The state updater that [updateConfig key value] hands to [setConfig]. *)
Definition updateConfig (key : Key) (value : ValueOf key) (prev : SpriteConfig)
  : SpriteConfig :=
  let next := spread prev key value in
  match key with
  | KRows | KCols =>
      if totalFrames prev =? rows prev * cols prev
      then setTotalFrames next (rows next * cols next)
      else next
  | _ => next
  end.

(** The [onChange] handlers of the Rows and Cols inputs:
    [updateConfig('rows', parseInt(e.target.value) || 1)].  The argument is
    the result of [parseInt], [None] for [NaN]. *)
Definition onRowsChange (parsed : option Z) : SpriteConfig -> SpriteConfig :=
  updateConfig KRows (JS.or_one parsed).

Definition onColsChange (parsed : option Z) : SpriteConfig -> SpriteConfig :=
  updateConfig KCols (JS.or_one parsed).

(** ** src/utils/gifBuilder.ts: applyChromaKey *)

(** One RGBA pixel of an [ImageData]: four consecutive entries of its
    [Uint8ClampedArray], each in [0, 255]. *)
Record Pixel : Set := mkPixel {
  chR : Z;
  chG : Z;
  chB : Z;
  chA : Z
}.

(** [ImageData.data] always holds [4 * width * height] entries; the buffer
    is modelled pixel by pixel, in the order the loop [i += 4] visits it. *)
Definition ImageData : Set := list Pixel.

Definition isByte (v : Z) : Prop := 0 <= v <= 255.

Definition wellFormedPixel (p : Pixel) : Prop :=
  isByte (chR p) /\ isByte (chG p) /\ isByte (chB p) /\ isByte (chA p).

Definition KEY_COLOR_RGB : Z * Z * Z := (255, 0, 255).
Definition KEY_COLOR_HEX : Z := 0xff00ff.

(** The pixel the loop writes: the key colour, fully opaque. *)
Definition keyPixel : Pixel :=
  let '(kr, kg, kb) := KEY_COLOR_RGB in mkPixel kr kg kb 255.

Definition tolerance : Z := 20.

(** The condition of the [if] in the loop body. *)
Definition matchesKeyCondition (rBg gBg bBg : Z) (p : Pixel) : bool :=
  ((JS.abs (chR p - rBg) <? tolerance) &&
   (JS.abs (chG p - gBg) <? tolerance) &&
   (JS.abs (chB p - bBg) <? tolerance))
  || (chA p <? 10).

(** One iteration of the loop. *)
Definition chromaKeyPixel (rBg gBg bBg : Z) (p : Pixel) : Pixel :=
  if matchesKeyCondition rBg gBg bBg p then keyPixel else p.

(** [applyChromaKey]: the data read by [getImageData] to the data written
    back by [putImageData].  The reference colour is read before the loop
    starts, so the in-place write to pixel 0 does not change it; on an
    empty buffer the loop does not run. *)
Definition applyChromaKey (data : ImageData) : ImageData :=
  match data with
  | [] => []
  | p0 :: _ =>
      let rBg := chR p0 in
      let gBg := chG p0 in
      let bBg := chB p0 in
      map (chromaKeyPixel rBg gBg bBg) data
  end.

(** ** src/utils/gifBuilder.ts: generateGif *)

(** What the export canvas holds, as the sequence of 2D-context calls that
    produced it.  [fillRect] with the opaque key colour and [clearRect],
    both over the whole canvas, replace whatever was there. *)
Inductive Bitmap : Set :=
| Cleared                                   (* clearRect, and a new canvas *)
| FilledKey                                 (* fillStyle = '#ff00ff'; fillRect *)
| Drawn (sx sy sw sh : Q) (under : Bitmap)  (* drawImage of a source slice over the whole canvas *)
| ChromaKeyed (b : Bitmap).                 (* applyChromaKey *)

(** The export canvas: the integer size its [width] and [height]
    attributes hold, which the loop reads back for [fillRect], [clearRect],
    [drawImage] and [applyChromaKey], and what is painted on it. *)
Record Canvas : Set := mkCanvas {
  canvas_width : Z;
  canvas_height : Z;
  bitmap : Bitmap
}.

Definition fillRect (c : Canvas) : Canvas :=
  mkCanvas (canvas_width c) (canvas_height c) FilledKey.

Definition clearRect (c : Canvas) : Canvas :=
  mkCanvas (canvas_width c) (canvas_height c) Cleared.

Definition drawImage (c : Canvas) (sx sy sw sh : Q) : Canvas :=
  mkCanvas (canvas_width c) (canvas_height c) (Drawn sx sy sw sh (bitmap c)).

Definition applyChromaKeyCtx (c : Canvas) : Canvas :=
  mkCanvas (canvas_width c) (canvas_height c) (ChromaKeyed (bitmap c)).

(** The pixels of a bitmap, given what the browser paints: the buffer of a
    cleared canvas, of one filled with the key colour, and the compositing
    of a source slice over a buffer.  [ChromaKeyed] is [applyChromaKey]. *)
Fixpoint pixelsOf (cleared filled : ImageData)
    (composite : Q -> Q -> Q -> Q -> ImageData -> ImageData)
    (b : Bitmap) : ImageData :=
  match b with
  | Cleared => cleared
  | FilledKey => filled
  | Drawn sx sy sw sh under =>
      composite sx sy sw sh (pixelsOf cleared filled composite under)
  | ChromaKeyed b' => applyChromaKey (pixelsOf cleared filled composite b')
  end.

(** One call [gif.addFrame(ctx, { copy: true, delay })]: what the encoder
    receives.  With [copy: true] it takes the canvas content at the time of
    the call, so later drawing on the shared canvas does not reach a
    submitted frame. *)
Record Frame : Set := mkFrame {
  frame_canvas : Canvas;
  frame_delay : Q
}.

Record GifOptions : Set := mkGifOptions {
  opt_workers : Z;
  opt_quality : Z;
  opt_dither : bool;
  opt_width : Q;
  opt_height : Q;
  opt_transparent : option Z
}.

(** The encoder after the loop: its options and the frames added, oldest
    first. *)
Record GIF : Set := mkGIF {
  gif_options : GifOptions;
  gif_frames : list Frame
}.

(** [dimensions.width / config.cols], [dimensions.height / config.rows] and
    [1000 / config.fps], as exact quotients. *)
Definition frameWidthOf (config : SpriteConfig) (dimensions : ImageDimensions) : Q :=
  (inject_Z (width dimensions) / inject_Z (cols config))%Q.

Definition frameHeightOf (config : SpriteConfig) (dimensions : ImageDimensions) : Q :=
  (inject_Z (height dimensions) / inject_Z (rows config))%Q.

Definition delayOf (config : SpriteConfig) : Q :=
  (inject_Z 1000 / inject_Z (fps config))%Q.

(** The body of [for (let i = 0; i < config.totalFrames; i++)], on the
    shared canvas and the frames added so far. *)
Definition exportStep (config : SpriteConfig) (frameWidth frameHeight delay : Q)
    (state : Canvas * list Frame) (i : Z) : Canvas * list Frame :=
  let (canvas, frames) := state in
  let (row, col) := cellOfIndex config i in
  (* Safety check to prevent reading outside image *)
  if (row >=? rows config) || (col >=? cols config) then state
  else
    (* 1. Prepare Canvas *)
    let canvas1 :=
      if autoTransparent config then fillRect canvas else clearRect canvas in
    (* 2. Draw scaled image slice *)
    let canvas2 :=
      drawImage canvas1
        (inject_Z col * frameWidth)%Q (inject_Z row * frameHeight)%Q
        frameWidth frameHeight in
    (* 3. Apply Chroma Key if needed *)
    let canvas3 :=
      if autoTransparent config then applyChromaKeyCtx canvas2 else canvas2 in
    (canvas3, frames ++ [mkFrame canvas3 delay]).

(** The executor of the promise [generateGif] returns.  [ctx] tells whether
    [canvas.getContext('2d')] gave a context; without one the promise is
    rejected before any frame is added. *)
Definition generateGif (ctx : bool) (config : SpriteConfig)
    (dimensions : ImageDimensions) : string + GIF :=
  let gifOptions :=
    mkGifOptions 2 1 false
      (frameWidthOf config dimensions * inject_Z (scale config))%Q
      (frameHeightOf config dimensions * inject_Z (scale config))%Q
      (if autoTransparent config then Some KEY_COLOR_HEX else None) in
  let frameWidth := frameWidthOf config dimensions in
  let frameHeight := frameHeightOf config dimensions in
  let delay := delayOf config in
  let canvas :=
    mkCanvas (JS.to_canvas_size (frameWidth * inject_Z (scale config))%Q)
             (JS.to_canvas_size (frameHeight * inject_Z (scale config))%Q)
             Cleared in
  if negb ctx then inl "Could not create canvas context"%string
  else
    let final :=
      fold_left (exportStep config frameWidth frameHeight delay)
                (JS.range (totalFrames config)) (canvas, []) in
    inr (mkGIF gifOptions (snd final)).

(** ** PreviewPlayer *)

(** The component state ([isPlaying], [currentFrame]), whether the request
    kept in [requestRef] is still pending, and the cell the preview canvas
    shows.  The player is modelled with an image loaded and its canvas
    mounted, so that neither the effect nor [animate] returns early. *)
Record Player : Set := mkPlayer {
  isPlaying : bool;
  currentFrame : Z;
  pending : bool;
  shown : option (Z * Z)
}.

Inductive PlayerEvent : Set :=
| AnimationFrame (time : Q)  (* the browser runs the pending callback *)
| TogglePlay.                (* the play / pause button *)

(** [Math.floor(time / frameInterval) % totalFrames], the quotients taken
    exactly. *)
Definition frameIndexAt (config : SpriteConfig) (time : Q) : Z :=
  let frameInterval := (inject_Z 1000 / inject_Z (fps config))%Q in
  JS.rem (JS.floor (time / frameInterval)%Q) (totalFrames config).

(** The callback [animate]: it shows the frame of the timestamp it is
    given and asks for the next animation frame while [isPlaying]. *)
Definition animate (config : SpriteConfig) (time : Q) (p : Player) : Player :=
  let frameIndex := frameIndexAt config time in
  mkPlayer (isPlaying p) frameIndex (isPlaying p)
           (Some (cellOfIndex config frameIndex)).

(** The effect, run after a render with the given [isPlaying]: the cleanup
    of the previous run cancels the pending request, then a new one is
    made when playing. *)
Definition runEffect (p : Player) : Player :=
  mkPlayer (isPlaying p) (currentFrame p) (isPlaying p) (shown p).

(** The component when an image becomes available. *)
Definition mountPlayer : Player := runEffect (mkPlayer true 0 false None).

Definition playerStep (config : SpriteConfig) (p : Player) (e : PlayerEvent) : Player :=
  match e with
  | AnimationFrame time => if pending p then animate config time p else p
  | TogglePlay =>
      runEffect (mkPlayer (negb (isPlaying p)) (currentFrame p) (pending p) (shown p))
  end.

Definition playerRun (config : SpriteConfig) (p : Player) (es : list PlayerEvent) : Player :=
  fold_left (playerStep config) es p.


(** ** SpriteCanvas: renderGridOverlay *)

Record OverlayCell : Set := mkOverlayCell {
  cell_key : Z;
  cell_visualRow : Z;
  cell_visualCol : Z;
  cell_sequenceIndex : Z;
  cell_isActive : bool
}.

(** The callback of [.map((_, i) => ...)]. *)
Definition overlayCell (config : SpriteConfig) (i : Z) : OverlayCell :=
  let visualRow := JS.floor_div i (cols config) in
  let visualCol := JS.rem i (cols config) in
  let sequenceIndex := sequenceIndexOf config visualRow visualCol in
  let isActive := sequenceIndex <? totalFrames config in
  mkOverlayCell i visualRow visualCol sequenceIndex isActive.

(** [renderGridOverlay]: [None] is the [null] of the early return;
    [hasImage] is the truthiness of [imageUrl]. *)
Definition renderGridOverlay (hasImage : bool) (config : SpriteConfig)
    (renderedWidth : Z) : option (list OverlayCell) :=
  if negb hasImage || (cols config <=? 0) || (rows config <=? 0)
     || (renderedWidth =? 0)
  then None
  else Some (map (overlayCell config) (JS.range (rows config * cols config))).

(** The updates under which [updateConfig] keeps [GridInvariant]: it checks
    nothing itself, so this is a condition on the caller's value. *)
Definition admissibleUpdate (prev : SpriteConfig) (key : Key) : ValueOf key -> Prop :=
  match key return ValueOf key -> Prop with
  | KRows => fun v =>
      1 <= v /\
      (totalFrames prev = rows prev * cols prev \/ totalFrames prev <= v * cols prev)
  | KCols => fun v =>
      1 <= v /\
      (totalFrames prev = rows prev * cols prev \/ totalFrames prev <= rows prev * v)
  | KTotalFrames => fun v => 1 <= v <= rows prev * cols prev
  | _ => fun _ => True
  end.

(** The buffers on which a second chroma-key pass has nothing left to do:
    a pixel that the first pass keeps, yet lies within the tolerance of the
    key colour, is the opaque key colour already. *)
Definition keyCollisionFree (data : ImageData) : Prop :=
  match data with
  | [] => True
  | p0 :: _ =>
      forall p, In p data ->
        matchesKeyCondition (chR p0) (chG p0) (chB p0) p = false ->
        matchesKeyCondition 255 0 255 p = true ->
        p = keyPixel
  end.

(** The frames a finished call added; none when the promise was rejected. *)
Definition submittedFrames (result : string + GIF) : list Frame :=
  match result with
  | inr gif => gif_frames gif
  | inl _ => []
  end.

(** The frame of sequence index [i] on a canvas of the given size: the
    canvas prepared, the slice of the cell of [i] drawn over all of it, and
    the chroma key applied when [autoTransparent] is set. *)
Definition frameAt (config : SpriteConfig) (canvasWidth canvasHeight : Z)
    (frameWidth frameHeight delay : Q) (i : Z) : Frame :=
  let (row, col) := cellOfIndex config i in
  let sx := (inject_Z col * frameWidth)%Q in
  let sy := (inject_Z row * frameHeight)%Q in
  mkFrame
    (mkCanvas canvasWidth canvasHeight
       (if autoTransparent config
        then ChromaKeyed (Drawn sx sy frameWidth frameHeight FilledKey)
        else Drawn sx sy frameWidth frameHeight Cleared))
    delay.

(** The source rectangle [(sx, sy, sw, sh)] of the [drawImage] call that
    painted a bitmap last. *)
Fixpoint sliceOf (b : Bitmap) : option (Q * Q * Q * Q) :=
  match b with
  | Cleared | FilledKey => None
  | Drawn sx sy sw sh _ => Some (sx, sy, sw, sh)
  | ChromaKeyed b' => sliceOf b'
  end.

(** ** src/App.tsx: handleAutoDetect *)

(** The [Partial<SpriteConfig>] that [analyzeSpriteSheet] resolves with; a
    field is [None] when the parsed JSON has no value for it. *)
Record DetectResult : Set := mkDetectResult {
  res_rows : option Z;
  res_cols : option Z;
  res_totalFrames : option Z
}.

(** [a ?? b]: [b] replaces a missing value only. *)
Definition nullishOr (a : option Z) (b : Z) : Z :=
  match a with
  | Some v => v
  | None => b
  end.

(** [a || b]: [b] replaces a missing value and 0. *)
Definition falsyOr (a : option Z) (b : Z) : Z :=
  match a with
  | Some v => if v =? 0 then b else v
  | None => b
  end.

(** The updater [handleAutoDetect] hands to [setConfig]. *)
Definition detectedConfig (result : DetectResult) (prev : SpriteConfig) : SpriteConfig :=
  mkConfig
    (nullishOr (res_rows result) (rows prev))
    (nullishOr (res_cols result) (cols prev))
    (nullishOr (res_totalFrames result)
       (falsyOr (res_rows result) (rows prev) * falsyOr (res_cols result) (cols prev)))
    (fps prev) (scale prev) (transparent prev) (autoTransparent prev)
    (direction prev).

(** [handleAutoDetect]: nothing happens without an image; [None] is an
    analysis that threw, which leaves the configuration alone. *)
Definition handleAutoDetect (hasImage : bool) (analysis : option DetectResult)
    (prev : SpriteConfig) : SpriteConfig :=
  if negb hasImage then prev
  else match analysis with
       | Some result => detectedConfig result prev
       | None => prev
       end.

(** ** The generation service: retryOperation *)

(** What the [catch] looks at in a thrown error. *)
Record ApiError : Set := mkApiError {
  err_status : option Z;
  err_code : option Z;
  err_message : option string
}.

(** [haystack.includes(needle)]. *)
Definition includes (needle haystack : string) : bool :=
  match String.index 0 needle haystack with
  | Some _ => true
  | None => false
  end.

Definition isOverloaded (error : ApiError) : bool :=
  match err_status error with Some v => v =? 503 | None => false end
  || match err_code error with Some v => v =? 503 | None => false end
  || match err_message error with
     | Some message => includes "overloaded" message
     | None => false
     end.

(** A finished [retryOperation]: the value resolved or the error thrown,
    the number of calls of [operation], and the delays slept, in order. *)
Record RetryRun (T : Type) : Type := mkRetryRun {
  run_result : ApiError + T;
  run_calls : nat;
  run_sleeps : list Z
}.

Arguments mkRetryRun {T} _ _ _.
Arguments run_result {T} _.
Arguments run_calls {T} _.
Arguments run_sleeps {T} _.

(** [retryOperation(operation, retries, delay)].  [operation] is called
    anew at each attempt, and [operation k] is what its call number [k]
    (from 0) settles with; [attempt] counts the calls made before. *)
Fixpoint retryOperation {T : Type} (operation : nat -> ApiError + T)
    (attempt retries : nat) (delay : Z) : RetryRun T :=
  match operation attempt with
  | inr value => mkRetryRun (inr value) 1 []
  | inl error =>
      match retries with
      | S retries' =>
          if isOverloaded error then
            let later := retryOperation operation (S attempt) retries' (delay * 2) in
            mkRetryRun (run_result later) (S (run_calls later))
                       (delay :: run_sleeps later)
          else mkRetryRun (inl error) 1 []
      | O => mkRetryRun (inl error) 1 []
      end
  end.

(** The call with the default [retries = 3] and [delay = 1000]. *)
Definition retryOperationDefault {T : Type} (operation : nat -> ApiError + T)
  : RetryRun T :=
  retryOperation operation 0 3 1000.

(** The delays slept before the calls after the first when [n] calls
    failed: [delay], doubled each time. *)
Definition backoff (delay : Z) (n : nat) : list Z :=
  map (fun j => delay * 2 ^ Z.of_nat j) (seq 0 n).

(** ** The generation service: determineAspectRatio *)

Definition supported : list (string * Q) :=
  [("1:1"%string, 1.0%Q); ("3:4"%string, 0.75%Q); ("4:3"%string, 1.3333%Q);
   ("9:16"%string, 0.5625%Q); ("16:9"%string, 1.7778%Q)].

(** [a < b] on rationals, as a boolean. *)
Definition Qlt_bool (a b : Q) : bool := negb (Qle_bool b a).

(** One iteration of the search loop on [(closest, minDiff)]. *)
Definition closerOf (ratio : Q) (state : (string * Q) * Q) (candidate : string * Q)
  : (string * Q) * Q :=
  let diff := Qabs (ratio - snd candidate) in
  if Qlt_bool diff (snd state) then (candidate, diff) else state.

(** The loop over a list of ratios that starts from its first entry. *)
Definition closestOf (ratio : Q) (first : string * Q) (others : list (string * Q))
  : string * Q :=
  fst (fold_left (closerOf ratio) others (first, Qabs (ratio - snd first))).

(** [determineAspectRatio]: [Some (width, height)] is an image that loaded,
    [None] one that did not, for which the promise resolves with "1:1". *)
Definition determineAspectRatio (loaded : option (Z * Z)) : string :=
  match loaded with
  | Some (imgWidth, imgHeight) =>
      let ratio := (inject_Z imgWidth / inject_Z imgHeight)%Q in
      fst (closestOf ratio (hd ("1:1"%string, 1.0%Q) supported) (tl supported))
  | None => "1:1"%string
  end.

(** ** The generation service: data URLs *)

(** [s] without the prefix [p], when it starts with it. *)
Fixpoint stripPrefix (p s : string) : option string :=
  match p with
  | EmptyString => Some s
  | String a p' =>
      match s with
      | String b s' => if Ascii.eqb a b then stripPrefix p' s' else None
      | EmptyString => None
      end
  end.

(** The strings [/^data:image\/(png|jpeg|jpg|webp);base64,/] matches, in
    the order of the alternatives. *)
Definition dataUrlPrefixes : list string :=
  ["data:image/png;base64,"%string; "data:image/jpeg;base64,"%string;
   "data:image/jpg;base64,"%string; "data:image/webp;base64,"%string].

Fixpoint stripFirstOf (prefixes : list string) (s : string) : string :=
  match prefixes with
  | [] => s
  | p :: rest =>
      match stripPrefix p s with
      | Some cleaned => cleaned
      | None => stripFirstOf rest s
      end
  end.

(** [base64Image.replace(/^data:image\/(png|jpeg|jpg|webp);base64,/, "")]. *)
Definition cleanBase64 (base64Image : string) : string :=
  stripFirstOf dataUrlPrefixes base64Image.

(** A part of a response: its [inlineData], when there is one, with the
    [data] it holds, when it holds any. *)
Record Part : Set := mkPart {
  part_text : option string;
  part_inlineData : option (option string)
}.

(** [`data:image/png;base64,${part.inlineData.data}`]: a missing [data]
    prints as "undefined". *)
Definition imageDataUrl (data : option string) : string :=
  ("data:image/png;base64," ++
   match data with Some d => d | None => "undefined" end)%string.

(** The loop over [response.candidates[0].content.parts] that returns at
    the first part with [inlineData]. *)
Fixpoint firstImage (parts : list Part) : option string :=
  match parts with
  | [] => None
  | part :: rest =>
      match part_inlineData part with
      | Some data => Some (imageDataUrl data)
      | None => firstImage rest
      end
  end.

(** What [generateSpriteVariant] and [generateActionSprite] make of a
    response: [None] stands for a response without
    [candidates?.[0]?.content?.parts]. *)
Definition imageOfResponse (parts : option (list Part)) : string + string :=
  match parts with
  | Some ps =>
      match firstImage ps with
      | Some url => inr url
      | None => inl "No image generated in response"%string
      end
  | None => inl "No image generated in response"%string
  end.

(** ** src/App.tsx: the node canvas *)

Record Position : Set := mkPosition {
  pos_x : Q;
  pos_y : Q
}.

Inductive NodeType : Set :=
| SourceNode    (* 'source' *)
| PreviewNode.  (* 'preview' *)

(** [CanvasNodeData] of src/types.ts; [width] and [height] are optional. *)
Record CanvasNodeData : Set := mkNode {
  node_id : string;
  node_type : NodeType;
  node_title : string;
  node_position : Position;
  node_width : option Q;
  node_height : option Q
}.

Record Viewport : Set := mkViewport {
  vp_scale : Q;
  vp_x : Q;
  vp_y : Q
}.

(** The state and the refs of [App] that the canvas handlers use. *)
Record Workspace : Set := mkWorkspace {
  nodes : list CanvasNodeData;
  viewport : Viewport;
  isPanning : bool;
  panStart : Position;
  isDraggingNode : option string;
  nodeDragStart : Position;
  initialNodePos : Position
}.

Definition initialWorkspace : Workspace :=
  mkWorkspace [] (mkViewport 0.8 100 100) false (mkPosition 0 0) None
              (mkPosition 0 0) (mkPosition 0 0).

Definition MAX_SOURCE_HEIGHT : Q := 600.

(** [nodes.find(n => n.id === id)]. *)
Definition findNode (id : string) (ns : list CanvasNodeData) : option CanvasNodeData :=
  find (fun n => String.eqb (node_id n) id) ns.

(** The truthiness of [isDraggingNode]: a string that is not empty. *)
Definition draggingId (w : Workspace) : option string :=
  match isDraggingNode w with
  | Some id => if String.eqb id "" then None else Some id
  | None => None
  end.

(** The truthiness of a number. *)
Definition truthyNumber (q : Q) : bool := negb (Qeq_bool q 0).

Definition setViewport (w : Workspace) (v : Viewport) : Workspace :=
  mkWorkspace (nodes w) v (isPanning w) (panStart w) (isDraggingNode w)
              (nodeDragStart w) (initialNodePos w).

Definition setNodes (w : Workspace) (ns : list CanvasNodeData) : Workspace :=
  mkWorkspace ns (viewport w) (isPanning w) (panStart w) (isDraggingNode w)
              (nodeDragStart w) (initialNodePos w).

Definition handleWheel (ctrlKey metaKey : bool) (deltaX deltaY : Q) (w : Workspace)
  : Workspace :=
  let v := viewport w in
  if ctrlKey || metaKey then
    let zoomSensitivity := 0.001%Q in
    let delta := (- deltaY * zoomSensitivity)%Q in
    let newScale := Qmin (Qmax 0.1 (vp_scale v + delta)) 5 in
    setViewport w (mkViewport newScale (vp_x v) (vp_y v))
  else
    setViewport w (mkViewport (vp_scale v) (vp_x v - deltaX) (vp_y v - deltaY)).

Definition handleCanvasMouseDown (button : Z) (clientX clientY : Q) (w : Workspace)
  : Workspace :=
  match draggingId w with
  | Some _ => w
  | None =>
      if (button =? 0) || (button =? 1) then
        mkWorkspace (nodes w) (viewport w) true
          (mkPosition (clientX - vp_x (viewport w)) (clientY - vp_y (viewport w)))
          (isDraggingNode w) (nodeDragStart w) (initialNodePos w)
      else w
  end.

Definition handleNodeMouseDown (clientX clientY : Q) (nodeId : string) (w : Workspace)
  : Workspace :=
  mkWorkspace (nodes w) (viewport w) (isPanning w) (panStart w) (Some nodeId)
    (mkPosition clientX clientY)
    match findNode nodeId (nodes w) with
    | Some node => mkPosition (pos_x (node_position node)) (pos_y (node_position node))
    | None => initialNodePos w
    end.

(** [{ ...n, position }]. *)
Definition moveNode (n : CanvasNodeData) (position : Position) : CanvasNodeData :=
  mkNode (node_id n) (node_type n) (node_title n) position
         (node_width n) (node_height n).

Definition handleGlobalMouseMove (clientX clientY : Q) (w : Workspace) : Workspace :=
  (* 1. Panning Canvas *)
  let viewport' :=
    if isPanning w then
      mkViewport (vp_scale (viewport w))
                 (clientX - pos_x (panStart w)) (clientY - pos_y (panStart w))
    else viewport w in
  (* 2. Dragging Node *)
  let nodes' :=
    match draggingId w with
    | Some id =>
        let deltaX := ((clientX - pos_x (nodeDragStart w)) / vp_scale (viewport w))%Q in
        let deltaY := ((clientY - pos_y (nodeDragStart w)) / vp_scale (viewport w))%Q in
        map (fun n =>
               if String.eqb (node_id n) id then
                 moveNode n (mkPosition (pos_x (initialNodePos w) + deltaX)
                                        (pos_y (initialNodePos w) + deltaY))
               else n)
            (nodes w)
    | None => nodes w
    end in
  mkWorkspace nodes' viewport' (isPanning w) (panStart w) (isDraggingNode w)
              (nodeDragStart w) (initialNodePos w).

Definition handleGlobalMouseUp (w : Workspace) : Workspace :=
  mkWorkspace (nodes w) (viewport w) false (panStart w) None
              (nodeDragStart w) (initialNodePos w).

Definition zoomIn (w : Workspace) : Workspace :=
  let v := viewport w in
  setViewport w (mkViewport (Qmin (vp_scale v + 0.1) 3) (vp_x v) (vp_y v)).

Definition zoomOut (w : Workspace) : Workspace :=
  let v := viewport w in
  setViewport w (mkViewport (Qmax (vp_scale v - 0.1) 0.1) (vp_x v) (vp_y v)).

Definition resetView (w : Workspace) : Workspace :=
  setViewport w (mkViewport 0.8 100 100).

(** The effect on [imageUrl]: no image, no nodes; an image on an empty
    canvas puts the two nodes at their first places. *)
Definition initNodesEffect (hasImage : bool) (w : Workspace) : Workspace :=
  if negb hasImage then setNodes w []
  else
    match nodes w with
    | [] =>
        setNodes w
          [mkNode "source" SourceNode "Sprite Sheet" (mkPosition 0 0)
                  (Some 300%Q) (Some 300%Q);
           mkNode "preview" PreviewNode "Animation" (mkPosition 400 0)
                  (Some 420%Q) (Some 460%Q)]
    | _ :: _ => w
    end.

(** The effect on [dimensions]: the size of the source node follows the
    image as displayed, the preview node is put to its right. *)
Definition layoutEffect (dimensions : ImageDimensions) (w : Workspace) : Workspace :=
  if (width dimensions =? 0) || (Nat.eqb (length (nodes w)) 0) then w
  else
    let displayWidth := inject_Z (width dimensions) in
    let displayHeight := inject_Z (height dimensions) in
    let (displayWidth, displayHeight) :=
      if Qlt_bool MAX_SOURCE_HEIGHT displayHeight then
        let scale := (MAX_SOURCE_HEIGHT / displayHeight)%Q in
        ((inject_Z (width dimensions) * scale)%Q, MAX_SOURCE_HEIGHT)
      else (displayWidth, displayHeight) in
    let padding := 16%Q in
    let headerHeight := 40%Q in
    let minSourceWidth := 300%Q in
    let sourceNodeWidth := Qmax minSourceWidth (displayWidth + padding) in
    let sourceNodeHeight := (displayHeight + headerHeight + padding)%Q in
    let previewNodeWidth := 420%Q in
    let previewNodeHeight := (400 + headerHeight + padding)%Q in
    let gap := 150%Q in
    let sourcePos :=
      match findNode "source" (nodes w) with
      | Some sourceNode => node_position sourceNode
      | None => mkPosition 0 0
      end in
    let newPreviewX := (pos_x sourcePos + sourceNodeWidth + gap)%Q in
    let newPreviewY := pos_y sourcePos in
    setNodes w
      [mkNode "source" SourceNode "Sprite Sheet" sourcePos
              (Some sourceNodeWidth) (Some sourceNodeHeight);
       mkNode "preview" PreviewNode "Animation" (mkPosition newPreviewX newPreviewY)
              (Some previewNodeWidth) (Some previewNodeHeight)].

(** [renderConnections]: the two ends of the line, or [None] for [null]. *)
Definition renderConnections (w : Workspace) : option (Position * Position) :=
  if (length (nodes w) <? 2)%nat then None
  else
    match findNode "source" (nodes w), findNode "preview" (nodes w) with
    | Some source, Some preview =>
        match node_width source, node_height source, node_height preview with
        | Some sourceWidth, Some sourceHeight, Some previewHeight =>
            if truthyNumber sourceWidth && truthyNumber sourceHeight
               && truthyNumber previewHeight
            then
              Some (mkPosition (pos_x (node_position source) + sourceWidth)
                               (pos_y (node_position source) + sourceHeight / 2),
                    mkPosition (pos_x (node_position preview))
                               (pos_y (node_position preview) + previewHeight / 2))
            else None
        | _, _, _ => None
        end
    | _, _ => None
    end.

(** ConnectionLine: the two control points of the Bezier curve. *)
Definition connectionControlPoints (start finish : Position) : Position * Position :=
  let curvature := 0.5%Q in
  let dist := Qabs (pos_x finish - pos_x start) in
  (mkPosition (pos_x start + dist * curvature) (pos_y start),
   mkPosition (pos_x finish - dist * curvature) (pos_y finish)).

(** What reaches the canvas: the mouse and wheel events of the interactive
    area, the zoom buttons, and the two effects. *)
Inductive WorkspaceEvent : Set :=
| Wheel (ctrlKey metaKey : bool) (deltaX deltaY : Q)
| CanvasMouseDown (button : Z) (clientX clientY : Q)
| NodeMouseDown (clientX clientY : Q) (nodeId : string)
| MouseMove (clientX clientY : Q)
| MouseUp
| ZoomIn
| ZoomOut
| ResetView
| ImageChanged (hasImage : bool)
| DimensionsLoaded (dimensions : ImageDimensions).

Definition workspaceStep (w : Workspace) (e : WorkspaceEvent) : Workspace :=
  match e with
  | Wheel ctrlKey metaKey deltaX deltaY => handleWheel ctrlKey metaKey deltaX deltaY w
  | CanvasMouseDown button clientX clientY =>
      handleCanvasMouseDown button clientX clientY w
  | NodeMouseDown clientX clientY nodeId => handleNodeMouseDown clientX clientY nodeId w
  | MouseMove clientX clientY => handleGlobalMouseMove clientX clientY w
  | MouseUp => handleGlobalMouseUp w
  | ZoomIn => zoomIn w
  | ZoomOut => zoomOut w
  | ResetView => resetView w
  | ImageChanged hasImage => initNodesEffect hasImage w
  | DimensionsLoaded dimensions => layoutEffect dimensions w
  end.

(** A run of mouse moves over the interactive area, oldest first. *)
Definition mouseMoves (moves : list (Q * Q)) (w : Workspace) : Workspace :=
  fold_left (fun (w0 : Workspace) (m : Q * Q) =>
               handleGlobalMouseMove (fst m) (snd m) w0) moves w.

(** Where a drag of [(fromX, fromY)] to [(toX, toY)] at a zoom of [scale]
    puts the nodes called [id], [anchor] being the position the drag
    started from. *)
Definition draggedTo (id : string) (anchor : Position) (scale : Q)
    (fromX fromY toX toY : Q) (n : CanvasNodeData) : CanvasNodeData :=
  if String.eqb (node_id n) id then
    moveNode n (mkPosition (pos_x anchor + (toX - fromX) / scale)
                           (pos_y anchor + (toY - fromY) / scale))
  else n.

(** The size of the export canvas, as its attributes hold it. *)
Definition canvasWidthOf (config : SpriteConfig) (dimensions : ImageDimensions) : Z :=
  JS.to_canvas_size (frameWidthOf config dimensions * inject_Z (scale config))%Q.

Definition canvasHeightOf (config : SpriteConfig) (dimensions : ImageDimensions) : Z :=
  JS.to_canvas_size (frameHeightOf config dimensions * inject_Z (scale config))%Q.

(** What the canvas holds when the frame of a cell is added: the canvas
    prepared, the slice of the cell drawn over all of it, and the chroma key
    applied, when [autoTransparent] is set. *)
Definition bitmapOfCell (auto : bool) (frameWidth frameHeight : Q) (cell : Z * Z)
  : Bitmap :=
  let sx := (inject_Z (snd cell) * frameWidth)%Q in
  let sy := (inject_Z (fst cell) * frameHeight)%Q in
  if auto then ChromaKeyed (Drawn sx sy frameWidth frameHeight FilledKey)
  else Drawn sx sy frameWidth frameHeight Cleared.

(** The source rectangle of a bitmap with each number in lowest terms. *)
Definition reducedSlice (b : Bitmap) : option (Q * Q * Q * Q) :=
  match sliceOf b with
  | Some (sx, sy, sw, sh) => Some (Qred sx, Qred sy, Qred sw, Qred sh)
  | None => None
  end.

(** * Properties *)

(** ** Helper facts on the JavaScript operators *)

Lemma rem_nonneg (a b : Z) : 0 <= a -> 0 < b -> JS.rem a b = a mod b.
Proof. intros Ha Hb. unfold JS.rem. apply Z.rem_mod_nonneg; lia. Qed.

Lemma floor_div_rem (a b : Z) :
  0 <= a -> 0 < b -> JS.floor_div a b * b + JS.rem a b = a.
Proof.
  intros Ha Hb. rewrite rem_nonneg by assumption. unfold JS.floor_div.
  pose proof (Z.div_mod a b). lia.
Qed.

Lemma rem_range (a b : Z) : 0 <= a -> 0 < b -> 0 <= JS.rem a b < b.
Proof.
  intros Ha Hb. rewrite rem_nonneg by assumption. apply Z.mod_pos_bound; lia.
Qed.

Lemma floor_div_range (a b n : Z) :
  0 <= a < n * b -> 0 < b -> 0 <= JS.floor_div a b < n.
Proof.
  intros Ha Hb. unfold JS.floor_div. split.
  - apply Z.div_pos; lia.
  - apply Z.div_lt_upper_bound; lia.
Qed.

Lemma range_length (n : Z) : length (JS.range n) = Z.to_nat n.
Proof. unfold JS.range. now rewrite length_map, length_seq. Qed.

Lemma range_In (n i : Z) : In i (JS.range n) <-> 0 <= i < n.
Proof.
  unfold JS.range. rewrite in_map_iff. split.
  - intros [k [<- Hk]]. apply in_seq in Hk. lia.
  - intros Hi. exists (Z.to_nat i). split; [lia|]. apply in_seq. lia.
Qed.

(** ** Grid addressing *)

Lemma cellOfIndex_in_grid (config : SpriteConfig) (i : Z) :
  1 <= rows config -> 1 <= cols config ->
  0 <= i < rows config * cols config ->
  0 <= fst (cellOfIndex config i) < rows config /\
  0 <= snd (cellOfIndex config i) < cols config.
Proof.
  intros Hr Hc Hi. unfold cellOfIndex.
  destruct (direction config); cbn [fst snd].
  - split; [apply floor_div_range | apply rem_range]; lia.
  - split; [apply rem_range | apply floor_div_range]; lia.
Qed.

(** C1. For a grid with [rows >= 1] and [cols >= 1] and an index
    [0 <= i < rows * cols], the cell the exporter computes for [i] is mapped
    back to [i] by the overlay's cell-to-index computation, whichever the
    traversal direction of the configuration. *)
Theorem index_cell_roundtrip (config : SpriteConfig) (i : Z) :
  1 <= rows config -> 1 <= cols config ->
  0 <= i < rows config * cols config ->
  sequenceIndexOf config (fst (cellOfIndex config i)) (snd (cellOfIndex config i)) = i.
Proof.
  intros Hr Hc Hi. unfold sequenceIndexOf, cellOfIndex.
  destruct (direction config); cbn [fst snd]; apply floor_div_rem; lia.
Qed.

Lemma index_cell_roundtrip_witness :
  sequenceIndexOf (mkConfig 2 3 6 12 1 None true DirRow)
    (fst (cellOfIndex (mkConfig 2 3 6 12 1 None true DirRow) 4))
    (snd (cellOfIndex (mkConfig 2 3 6 12 1 None true DirRow) 4)) = 4
  /\
  sequenceIndexOf (mkConfig 2 3 6 12 1 None true DirColumn)
    (fst (cellOfIndex (mkConfig 2 3 6 12 1 None true DirColumn) 4))
    (snd (cellOfIndex (mkConfig 2 3 6 12 1 None true DirColumn) 4)) = 4.
Proof.
  split.
  - apply (index_cell_roundtrip (mkConfig 2 3 6 12 1 None true DirRow) 4);
      simpl; lia.
  - apply (index_cell_roundtrip (mkConfig 2 3 6 12 1 None true DirColumn) 4);
      simpl; lia.
Defined.

(** The two cells the spec names for a 2 x 3 grid. *)
Example cellOfIndex_row_major :
  cellOfIndex (mkConfig 2 3 6 12 1 None true DirRow) 4 = (1, 1).
Proof. reflexivity. Qed.

Example cellOfIndex_column_major :
  cellOfIndex (mkConfig 2 3 6 12 1 None true DirColumn) 4 = (0, 2).
Proof. reflexivity. Qed.

(** ** updateConfig *)

(** C10. Setting [rows] or [cols]: [totalFrames] follows the new
    [rows * cols] when it was equal to the old one and keeps its value
    otherwise; the updated field takes the value, and every other field
    keeps its own. *)
Theorem updateConfig_rows_cols_frame (prev : SpriteConfig) (v : Z) :
  let byRows := updateConfig KRows v prev in
  let byCols := updateConfig KCols v prev in
  (rows byRows = v /\ cols byRows = cols prev /\
   totalFrames byRows =
     (if totalFrames prev =? rows prev * cols prev
      then rows byRows * cols byRows else totalFrames prev) /\
   fps byRows = fps prev /\ scale byRows = scale prev /\
   direction byRows = direction prev /\
   autoTransparent byRows = autoTransparent prev /\
   transparent byRows = transparent prev)
  /\
  (cols byCols = v /\ rows byCols = rows prev /\
   totalFrames byCols =
     (if totalFrames prev =? rows prev * cols prev
      then rows byCols * cols byCols else totalFrames prev) /\
   fps byCols = fps prev /\ scale byCols = scale prev /\
   direction byCols = direction prev /\
   autoTransparent byCols = autoTransparent prev /\
   transparent byCols = transparent prev).
Proof.
  cbv zeta. unfold updateConfig.
  destruct (totalFrames prev =? rows prev * cols prev); cbn; repeat split.
Qed.

(** The other keys change their own field only. *)
Lemma updateConfig_other_keys (prev : SpriteConfig) (key : Key) (value : ValueOf key) :
  key <> KRows -> key <> KCols ->
  updateConfig key value prev = spread prev key value.
Proof. destruct key; intros; try congruence; reflexivity. Qed.

(** [updateConfig] keeps the grid invariant exactly on admissible updates. *)
Lemma updateConfig_invariant_iff (prev : SpriteConfig) (key : Key) (value : ValueOf key) :
  GridInvariant prev ->
  GridInvariant (updateConfig key value prev) <-> admissibleUpdate prev key value.
Proof.
  unfold GridInvariant. intros (Hr & Hc & Ht).
  destruct key; unfold updateConfig, admissibleUpdate; cbn [spread];
    try destruct (Z.eqb_spec (totalFrames prev) (rows prev * cols prev));
    cbn; try tauto; try nia.
Qed.

(** C8, as the code has it. From a configuration that satisfies the grid
    invariant, [updateConfig] yields one that satisfies it whenever the update
    is admissible: a new [rows] or [cols] of at least 1 under which either
    [totalFrames] was the full grid (and follows it) or still fits the new
    grid; a new [totalFrames] within [1, rows * cols]; or any other key.
    [updateConfig] itself rejects no value. *)
Theorem updateConfig_preserves_invariant
    (prev : SpriteConfig) (key : Key) (value : ValueOf key) :
  GridInvariant prev -> admissibleUpdate prev key value ->
  GridInvariant (updateConfig key value prev).
Proof.
  intros Hinv Hadm. now apply updateConfig_invariant_iff.
Qed.

Lemma updateConfig_preserves_invariant_witness :
  GridInvariant (updateConfig KRows 5 INITIAL_CONFIG).
Proof.
  apply (updateConfig_preserves_invariant INITIAL_CONFIG KRows 5).
  - unfold GridInvariant; simpl; lia.
  - simpl; lia.
Defined.

(** C8, as stated, fails: with 14 of the 16 cells of a 4 x 4 grid in use,
    typing 1 into the Rows input leaves [totalFrames = 14] on a 1 x 4
    grid. *)
Lemma updateConfig_breaks_invariant :
  GridInvariant (mkConfig 4 4 14 12 1 None true DirRow) /\
  ~ GridInvariant (onRowsChange (Some 1) (mkConfig 4 4 14 12 1 None true DirRow)).
Proof.
  split.
  - unfold GridInvariant; simpl; lia.
  - unfold GridInvariant; simpl; lia.
Qed.

(** The Rows input also lets a negative number through: [x || 1] replaces
    only [NaN] and [0]. *)
Example onRowsChange_negative :
  rows (onRowsChange (Some (-3)) INITIAL_CONFIG) = -3.
Proof. reflexivity. Qed.

(** ** applyChromaKey *)

Lemma matchesKeyCondition_spec (rBg gBg bBg : Z) (p : Pixel) :
  matchesKeyCondition rBg gBg bBg p = true <->
  (Z.abs (chR p - rBg) < 20 /\ Z.abs (chG p - gBg) < 20 /\
   Z.abs (chB p - bBg) < 20) \/ chA p < 10.
Proof.
  unfold matchesKeyCondition, JS.abs, tolerance.
  rewrite orb_true_iff, !andb_true_iff, !Z.ltb_lt. tauto.
Qed.

Lemma matchesKeyCondition_self (p : Pixel) :
  matchesKeyCondition (chR p) (chG p) (chB p) p = true.
Proof. apply matchesKeyCondition_spec. left. rewrite !Z.sub_diag. cbn. lia. Qed.

Lemma applyChromaKey_cons (p0 : Pixel) (rest : ImageData) :
  applyChromaKey (p0 :: rest) =
  map (chromaKeyPixel (chR p0) (chG p0) (chB p0)) (p0 :: rest).
Proof. reflexivity. Qed.

Lemma applyChromaKey_length (data : ImageData) :
  length (applyChromaKey data) = length data.
Proof. destruct data; [reflexivity|]. rewrite applyChromaKey_cons. apply length_map. Qed.

(** The first pass always keys the reference pixel itself. *)
Lemma applyChromaKey_head (p0 : Pixel) (rest : ImageData) :
  exists rest', applyChromaKey (p0 :: rest) = keyPixel :: rest' /\
    rest' = map (chromaKeyPixel (chR p0) (chG p0) (chB p0)) rest.
Proof.
  eexists. split; [|reflexivity]. rewrite applyChromaKey_cons. cbn [map].
  unfold chromaKeyPixel at 1. now rewrite matchesKeyCondition_self.
Qed.

(** Bytes stay bytes: the loop writes 255 and 0 only. *)
Lemma applyChromaKey_wellFormed (data : ImageData) :
  Forall wellFormedPixel data -> Forall wellFormedPixel (applyChromaKey data).
Proof.
  intros Hall. destruct data as [|p0 rest]; [constructor|].
  rewrite applyChromaKey_cons. apply Forall_map.
  apply Forall_impl with (2 := Hall). intros p Hp. unfold chromaKeyPixel.
  destruct (matchesKeyCondition (chR p0) (chG p0) (chB p0) p); [|exact Hp].
  unfold wellFormedPixel, isByte. cbn. lia.
Qed.

(** C5, as the code has it. The pixel at position [k] of the result is the
    opaque key colour (255, 0, 255, 255) when each of its R, G, B channels
    differs from the channel of the pixel at (0,0) by less than the
    tolerance 20, or its alpha is below 10; otherwise it is the input pixel,
    unchanged.  The buffer keeps its length. *)
Theorem applyChromaKey_pixelwise (data : ImageData) (p0 p : Pixel) (k : nat) :
  nth_error data 0 = Some p0 ->
  nth_error data k = Some p ->
  length (applyChromaKey data) = length data /\
  (((Z.abs (chR p - chR p0) < 20 /\ Z.abs (chG p - chG p0) < 20 /\
     Z.abs (chB p - chB p0) < 20) \/ chA p < 10) ->
   nth_error (applyChromaKey data) k = Some (mkPixel 255 0 255 255)) /\
  (~ ((Z.abs (chR p - chR p0) < 20 /\ Z.abs (chG p - chG p0) < 20 /\
       Z.abs (chB p - chB p0) < 20) \/ chA p < 10) ->
   nth_error (applyChromaKey data) k = Some p).
Proof.
  intros H0 Hk. split; [apply applyChromaKey_length|].
  destruct data as [|q rest]; [discriminate|].
  cbn in H0. injection H0 as ->.
  rewrite applyChromaKey_cons, nth_error_map, Hk. cbn [option_map].
  unfold chromaKeyPixel.
  pose proof (matchesKeyCondition_spec (chR p0) (chG p0) (chB p0) p) as Hspec.
  destruct (matchesKeyCondition (chR p0) (chG p0) (chB p0) p).
  - split; [reflexivity|]. intros Hn. exfalso. apply Hn, Hspec. reflexivity.
  - split; [|reflexivity]. intros Hc. apply Hspec in Hc. discriminate.
Qed.

Lemma applyChromaKey_pixelwise_witness :
  nth_error (applyChromaKey
     [mkPixel 255 255 255 255; mkPixel 240 250 245 255; mkPixel 10 20 30 255]) 1
    = Some (mkPixel 255 0 255 255)
  /\
  nth_error (applyChromaKey
     [mkPixel 255 255 255 255; mkPixel 240 250 245 255; mkPixel 10 20 30 255]) 2
    = Some (mkPixel 10 20 30 255).
Proof.
  split.
  - apply (applyChromaKey_pixelwise
             [mkPixel 255 255 255 255; mkPixel 240 250 245 255; mkPixel 10 20 30 255]
             (mkPixel 255 255 255 255) (mkPixel 240 250 245 255) 1);
      [reflexivity | reflexivity | simpl; lia].
  - apply (applyChromaKey_pixelwise
             [mkPixel 255 255 255 255; mkPixel 240 250 245 255; mkPixel 10 20 30 255]
             (mkPixel 255 255 255 255) (mkPixel 10 20 30 255) 2);
      [reflexivity | reflexivity | simpl; lia].
Defined.

(** The tolerance is exclusive: a channel exactly 20 away from the
    reference is outside it, one 19 away is inside. *)
Example applyChromaKey_tolerance_bound :
  applyChromaKey [mkPixel 255 255 255 255; mkPixel 235 255 255 255;
                  mkPixel 236 255 255 255]
  = [mkPixel 255 0 255 255; mkPixel 235 255 255 255; mkPixel 255 0 255 255].
Proof. reflexivity. Qed.

(** C5, as stated, fails on the bound: a channel exactly 20 away from the
    reference is within a tolerance of 20, and the pixel is kept. *)
Lemma applyChromaKey_bound_kept :
  (Z.abs (chR (mkPixel 235 255 255 255) - chR (mkPixel 255 255 255 255)) <= 20 /\
   Z.abs (chG (mkPixel 235 255 255 255) - chG (mkPixel 255 255 255 255)) <= 20 /\
   Z.abs (chB (mkPixel 235 255 255 255) - chB (mkPixel 255 255 255 255)) <= 20) /\
  nth_error (applyChromaKey [mkPixel 255 255 255 255; mkPixel 235 255 255 255]) 1
    = Some (mkPixel 235 255 255 255) /\
  nth_error (applyChromaKey [mkPixel 255 255 255 255; mkPixel 235 255 255 255]) 1
    <> Some (mkPixel 255 0 255 255).
Proof.
  split; [cbn; lia|]. split; [reflexivity|]. cbn. discriminate.
Qed.

(** A nearly transparent pixel is keyed whatever its colour. *)
Example applyChromaKey_alpha :
  applyChromaKey [mkPixel 255 255 255 255; mkPixel 10 20 30 9;
                  mkPixel 10 20 30 10]
  = [mkPixel 255 0 255 255; mkPixel 255 0 255 255; mkPixel 10 20 30 10].
Proof. reflexivity. Qed.

(** C4, as the code has it. A second pass takes the key colour, now at
    (0,0), for its reference; it changes nothing exactly on the buffers in
    which every pixel kept by the first pass and within the tolerance of the
    key colour is the opaque key colour already. *)
Theorem applyChromaKey_idempotent_iff (data : ImageData) :
  applyChromaKey (applyChromaKey data) = applyChromaKey data <->
  keyCollisionFree data.
Proof.
  destruct data as [|p0 rest]; [cbn; tauto|].
  destruct (applyChromaKey_head p0 rest) as [rest' [Hhead _]].
  assert (Hsecond : applyChromaKey (applyChromaKey (p0 :: rest)) =
            map (chromaKeyPixel 255 0 255) (applyChromaKey (p0 :: rest))).
  { rewrite Hhead. reflexivity. }
  rewrite Hsecond, applyChromaKey_cons, map_map.
  unfold keyCollisionFree.
  split; [intros H p Hin | intros H; apply map_ext_in; intros p Hin].
  - intros Hkeep Hnear.
    pose proof (proj1 map_ext_in_iff H p Hin) as Hp. cbv beta in Hp. revert Hp.
    unfold chromaKeyPixel at 2 3. rewrite Hkeep.
    unfold chromaKeyPixel. rewrite Hnear. congruence.
  - unfold chromaKeyPixel at 2 3.
    destruct (matchesKeyCondition (chR p0) (chG p0) (chB p0) p) eqn:Hkeep.
    + reflexivity.
    + unfold chromaKeyPixel.
      destruct (matchesKeyCondition 255 0 255 p) eqn:Hnear; [|reflexivity].
      symmetry. now apply H.
Qed.

Lemma applyChromaKey_idempotent_iff_witness :
  applyChromaKey (applyChromaKey
    [mkPixel 255 255 255 255; mkPixel 250 250 250 255; mkPixel 10 20 30 255])
  = applyChromaKey
    [mkPixel 255 255 255 255; mkPixel 250 250 250 255; mkPixel 10 20 30 255].
Proof.
  apply (proj2 (applyChromaKey_idempotent_iff
    [mkPixel 255 255 255 255; mkPixel 250 250 250 255; mkPixel 10 20 30 255])).
  simpl. intros p [<- | [<- | [<- | []]]]; simpl; intros; discriminate.
Defined.

(** C4, as stated, fails: on a white background a foreground pixel
    (250, 5, 250) survives the first pass and is keyed by the second. *)
Lemma applyChromaKey_not_idempotent :
  applyChromaKey (applyChromaKey [mkPixel 255 255 255 255; mkPixel 250 5 250 255])
  <> applyChromaKey [mkPixel 255 255 255 255; mkPixel 250 5 250 255].
Proof. cbv. discriminate. Qed.

(** ** generateGif *)

Section ExportLoop.

Variable config : SpriteConfig.
Variables frameWidth frameHeight delay : Q.

Hypothesis rows_pos : 1 <= rows config.
Hypothesis cols_pos : 1 <= cols config.

(** Inside the grid the safety check lets the iteration through. *)
Lemma safety_check_passes (i : Z) :
  0 <= i < rows config * cols config ->
  (fst (cellOfIndex config i) >=? rows config)
  || (snd (cellOfIndex config i) >=? cols config) = false.
Proof.
  intros Hi.
  destruct (cellOfIndex_in_grid config i rows_pos cols_pos Hi) as [Hr Hc].
  apply orb_false_iff. split; rewrite Z.geb_leb; apply Z.leb_gt; lia.
Qed.

(** Past the grid it stops it. *)
Lemma safety_check_skips (i : Z) :
  rows config * cols config <= i ->
  (fst (cellOfIndex config i) >=? rows config)
  || (snd (cellOfIndex config i) >=? cols config) = true.
Proof.
  intros Hi. unfold cellOfIndex, JS.floor_div.
  destruct (direction config); cbn [fst snd]; apply orb_true_iff.
  - left. apply Z.geb_le, Z.div_le_lower_bound; lia.
  - right. apply Z.geb_le, Z.div_le_lower_bound; lia.
Qed.

Lemma exportStep_in_grid (canvas : Canvas) (frames : list Frame) (i : Z) :
  0 <= i < rows config * cols config ->
  exportStep config frameWidth frameHeight delay (canvas, frames) i =
  (frame_canvas (frameAt config (canvas_width canvas) (canvas_height canvas)
                         frameWidth frameHeight delay i),
   frames ++ [frameAt config (canvas_width canvas) (canvas_height canvas)
                      frameWidth frameHeight delay i]).
Proof.
  intros Hi. pose proof (safety_check_passes i Hi) as Hcheck.
  unfold exportStep, frameAt.
  destruct (cellOfIndex config i) as [row col]. cbn [fst snd] in Hcheck.
  rewrite Hcheck. destruct (autoTransparent config); reflexivity.
Qed.

Lemma frameAt_canvas_size (w h : Z) (i : Z) :
  canvas_width (frame_canvas (frameAt config w h frameWidth frameHeight delay i)) = w /\
  canvas_height (frame_canvas (frameAt config w h frameWidth frameHeight delay i)) = h.
Proof. unfold frameAt. destruct (cellOfIndex config i). split; reflexivity. Qed.


End ExportLoop.

(** Whatever the configuration, the steps of the loop leave the size of the
    shared canvas alone, and each frame added carries that size and the
    delay of the call. *)
Lemma export_loop_frames (config : SpriteConfig) (frameWidth frameHeight delay : Q)
    (P : Frame -> Prop) (w h : Z) (indices : list Z) :
  (forall f, canvas_width (frame_canvas f) = w ->
             canvas_height (frame_canvas f) = h ->
             frame_delay f = delay -> P f) ->
  forall (canvas : Canvas) (frames : list Frame),
  canvas_width canvas = w -> canvas_height canvas = h ->
  Forall P frames ->
  Forall P (snd (fold_left (exportStep config frameWidth frameHeight delay)
                   indices (canvas, frames))).
Proof.
  intros HP. induction indices as [|i rest IH]; intros canvas frames Hw Hh Hall.
  - exact Hall.
  - cbn [fold_left]. unfold exportStep at 2.
    destruct (cellOfIndex config i) as [row col].
    destruct ((row >=? rows config) || (col >=? cols config)).
    + now apply IH.
    + apply IH.
      * destruct (autoTransparent config); exact Hw.
      * destruct (autoTransparent config); exact Hh.
      * apply Forall_app. split; [exact Hall|]. constructor; [|constructor].
        apply HP; destruct (autoTransparent config); cbn; congruence.
Qed.


Lemma frameAt_fields (config : SpriteConfig) (w h : Z) (fw fh d : Q) (i : Z) :
  frame_delay (frameAt config w h fw fh d i) = d /\
  canvas_width (frame_canvas (frameAt config w h fw fh d i)) = w /\
  canvas_height (frame_canvas (frameAt config w h fw fh d i)) = h /\
  bitmap (frame_canvas (frameAt config w h fw fh d i)) =
    bitmapOfCell (autoTransparent config) fw fh (cellOfIndex config i).
Proof.
  unfold frameAt, bitmapOfCell. destruct (cellOfIndex config i). repeat split.
Qed.



Lemma inject_Z_nonzero (b : Z) : b <> 0 -> ~ (inject_Z b == 0)%Q.
Proof. intros Hb H0. unfold Qeq in H0. cbn in H0. lia. Qed.


(** A quotient that equals its rounding is an integer. *)
Lemma round_exact_only_if (a b : Z) :
  0 < b ->
  (inject_Z a / inject_Z b == inject_Z (JS.round (inject_Z a / inject_Z b)))%Q ->
  (b | a).
Proof.
  intros Hb H. exists (JS.round (inject_Z a / inject_Z b)).
  set (n := JS.round (inject_Z a / inject_Z b)) in *.
  assert (Hb0 : ~ (inject_Z b == 0)%Q) by (apply inject_Z_nonzero; lia).
  assert (Ha : (inject_Z a == inject_Z n * inject_Z b)%Q).
  { rewrite <- H. field. exact Hb0. }
  rewrite <- inject_Z_mult in Ha. now apply (proj1 (inject_Z_injective _ _)).
Qed.

(** Without a 2D context nothing is added. *)
Lemma export_rejected (config : SpriteConfig) (dimensions : ImageDimensions) :
  generateGif false config dimensions = inl "Could not create canvas context"%string.
Proof. reflexivity. Qed.

(** The pixels of a frame exported with [autoTransparent]: the chroma key
    applied to the slice drawn over the key colour. *)
Lemma frameAt_pixels (config : SpriteConfig) (w h : Z) (fw fh d : Q) (i : Z)
    (cleared filled : ImageData)
    (composite : Q -> Q -> Q -> Q -> ImageData -> ImageData) :
  autoTransparent config = true ->
  pixelsOf cleared filled composite
    (bitmap (frame_canvas (frameAt config w h fw fh d i))) =
  applyChromaKey
    (composite (inject_Z (snd (cellOfIndex config i)) * fw)%Q
               (inject_Z (fst (cellOfIndex config i)) * fh)%Q fw fh filled).
Proof.
  intros Hauto. unfold frameAt. destruct (cellOfIndex config i) as [row col].
  rewrite Hauto. reflexivity.
Qed.

(** ** renderGridOverlay *)

Lemma range_nth (n : Z) (k : nat) :
  (k < Z.to_nat n)%nat -> nth_error (JS.range n) k = Some (Z.of_nat k).
Proof.
  intros Hk. unfold JS.range. rewrite nth_error_map.
  rewrite nth_error_nth' with (d := 0%nat) by (rewrite length_seq; exact Hk).
  rewrite seq_nth by exact Hk. reflexivity.
Qed.

(** The cell drawn at a visual position of the grid. *)
Lemma overlayCell_at (config : SpriteConfig) (visualRow visualCol : Z) :
  1 <= cols config -> 0 <= visualRow -> 0 <= visualCol < cols config ->
  overlayCell config (visualRow * cols config + visualCol) =
  mkOverlayCell (visualRow * cols config + visualCol) visualRow visualCol
    (sequenceIndexOf config visualRow visualCol)
    (sequenceIndexOf config visualRow visualCol <? totalFrames config).
Proof.
  intros Hc Hr Hv. unfold overlayCell.
  assert (Hdiv : JS.floor_div (visualRow * cols config + visualCol) (cols config)
                 = visualRow).
  { unfold JS.floor_div. rewrite Z.div_add_l by lia.
    rewrite Z.div_small by lia. lia. }
  assert (Hrem : JS.rem (visualRow * cols config + visualCol) (cols config)
                 = visualCol).
  { rewrite rem_nonneg by nia.
    rewrite Z.add_comm, Z.mod_add by lia. apply Z.mod_small. lia. }
  rewrite Hdiv, Hrem. reflexivity.
Qed.

(** C6. With an image shown on a grid with [rows, cols >= 1], the overlay
    is rendered with one cell per grid position, and the cell at
    [(visualRow, visualCol)] is active exactly when its sequence index under
    the configured direction, [visualRow * cols + visualCol] for 'row' and
    [visualCol * rows + visualRow] for 'column', is below [totalFrames].  On
    a 4 x 4 grid with 14 frames in the row direction the inactive cells are
    those of visual index 14 and 15. *)
Theorem overlay_active_cells (config : SpriteConfig) (renderedWidth : Z) :
  1 <= rows config -> 1 <= cols config -> renderedWidth <> 0 ->
  (exists cells,
     renderGridOverlay true config renderedWidth = Some cells /\
     Z.of_nat (length cells) = rows config * cols config /\
     forall visualRow visualCol,
       0 <= visualRow < rows config -> 0 <= visualCol < cols config ->
       exists cell,
         nth_error cells (Z.to_nat (visualRow * cols config + visualCol))
           = Some cell /\
         cell_visualRow cell = visualRow /\
         cell_visualCol cell = visualCol /\
         (cell_isActive cell = true <->
          match direction config with
          | DirRow => visualRow * cols config + visualCol
          | DirColumn => visualCol * rows config + visualRow
          end < totalFrames config))
  /\
  (exists cells,
     renderGridOverlay true (mkConfig 4 4 14 12 1 None true DirRow) renderedWidth
       = Some cells /\
     map cell_key (filter (fun cell => negb (cell_isActive cell)) cells) = [14; 15] /\
     map cell_key (filter cell_isActive cells) =
       [0; 1; 2; 3; 4; 5; 6; 7; 8; 9; 10; 11; 12; 13]).
Proof.
  intros Hr Hc Hw.
  assert (Hguard : forall c, 1 <= rows c -> 1 <= cols c ->
            renderGridOverlay true c renderedWidth =
            Some (map (overlayCell c) (JS.range (rows c * cols c)))).
  { intros c Hrc Hcc. unfold renderGridOverlay.
    destruct (Z.leb_spec (cols c) 0); [lia|].
    destruct (Z.leb_spec (rows c) 0); [lia|].
    destruct (Z.eqb_spec renderedWidth 0); [contradiction|]. reflexivity. }
  split.
  - eexists. split; [apply Hguard; assumption|]. split.
    + rewrite length_map, range_length. nia.
    + intros visualRow visualCol Hvr Hvc.
      exists (overlayCell config (visualRow * cols config + visualCol)).
      split.
      * rewrite nth_error_map, range_nth by nia.
        cbn [option_map]. f_equal. f_equal. nia.
      * rewrite overlayCell_at by lia. cbn.
        split; [reflexivity|]. split; [reflexivity|].
        unfold sequenceIndexOf. destruct (direction config); apply Z.ltb_lt.
  - eexists. split; [apply Hguard; simpl; lia|]. split; reflexivity.
Qed.

Lemma overlay_active_cells_witness :
  exists cells,
    renderGridOverlay true (mkConfig 2 3 4 12 1 None true DirColumn) 640
      = Some cells /\
    Z.of_nat (length cells) = 6.
Proof.
  destruct (overlay_active_cells (mkConfig 2 3 4 12 1 None true DirColumn) 640)
    as [[cells (Hcells & Hlen & _)] _]; [simpl; lia | simpl; lia | lia |].
  exists cells. split; [exact Hcells | exact Hlen].
Defined.

(** In the column direction of the same 2 x 3 grid, four frames fill the
    first two columns: the cells of the last column are the inactive ones. *)
Example overlay_column_direction :
  option_map (map (fun cell => (cell_visualRow cell, cell_visualCol cell,
                                cell_isActive cell)))
    (renderGridOverlay true (mkConfig 2 3 4 12 1 None true DirColumn) 640)
  = Some [(0, 0, true); (0, 1, true); (0, 2, false);
          (1, 0, true); (1, 1, true); (1, 2, false)].
Proof. reflexivity. Qed.

(** No overlay without an image, on an empty grid, or before the image has
    a rendered size. *)
Lemma overlay_not_rendered (hasImage : bool) (config : SpriteConfig)
    (renderedWidth : Z) :
  hasImage = false \/ cols config <= 0 \/ rows config <= 0 \/ renderedWidth = 0 ->
  renderGridOverlay hasImage config renderedWidth = None.
Proof.
  unfold renderGridOverlay. intros [-> | [H | [H | ->]]].
  - reflexivity.
  - apply Z.leb_le in H. rewrite H. now rewrite orb_true_r.
  - apply Z.leb_le in H. rewrite H. now rewrite !orb_true_r.
  - rewrite Z.eqb_refl. now rewrite !orb_true_r.
Qed.

(** ** PreviewPlayer *)

(** While paused no request is pending, and the animation frames of the
    browser reach nothing. *)
Lemma paused_player_idle (config : SpriteConfig) (times : list Q) :
  forall p : Player, pending p = false ->
  playerRun config p (map AnimationFrame times) = p.
Proof.
  induction times as [|t rest IH]; intros p Hp; [reflexivity|].
  unfold playerRun in *. cbn [map fold_left playerStep]. rewrite Hp.
  now apply IH.
Qed.

(** While playing, every animation frame shows the index of its own
    timestamp and asks for the next one. *)
Lemma playing_player_tick (config : SpriteConfig) (p : Player) (time : Q) :
  isPlaying p = true -> pending p = true ->
  let p' := playerStep config p (AnimationFrame time) in
  currentFrame p' = frameIndexAt config time /\
  shown p' = Some (cellOfIndex config (frameIndexAt config time)) /\
  isPlaying p' = true /\ pending p' = true.
Proof.
  intros Hplay Hpend. cbn. rewrite Hpend. cbn. rewrite Hplay. repeat split.
Qed.

(** C9, as the code has it. Pausing freezes the preview on the index it
    shows: no animation frame changes it until the button is pressed again.
    After resuming, the first frame shown is the one of the timestamp of
    that animation frame, [floor(t / (1000 / fps)) mod totalFrames]: the
    clock is the browser's and was not stopped by the pause, so the index is
    the frozen one only when both timestamps give the same index. *)
Theorem pause_freezes_resume_follows_clock
    (config : SpriteConfig) (p : Player) (tPause tResume : Q) (during : list Q) :
  1 <= fps config -> 1 <= totalFrames config ->
  isPlaying p = true -> pending p = true ->
  let displayed := playerStep config p (AnimationFrame tPause) in
  let paused := playerStep config displayed TogglePlay in
  let idle := playerRun config paused (map AnimationFrame during) in
  let resumed := playerStep config idle TogglePlay in
  let next := playerStep config resumed (AnimationFrame tResume) in
  isPlaying paused = false /\
  currentFrame idle = frameIndexAt config tPause /\
  shown idle = Some (cellOfIndex config (frameIndexAt config tPause)) /\
  isPlaying resumed = true /\
  currentFrame next = frameIndexAt config tResume /\
  shown next = Some (cellOfIndex config (frameIndexAt config tResume)) /\
  (currentFrame next = currentFrame idle <->
   frameIndexAt config tResume = frameIndexAt config tPause).
Proof.
  intros _ _ Hplay Hpend. cbv zeta.
  destruct (playing_player_tick config p tPause Hplay Hpend)
    as (Hframe & Hshown & Hplay' & Hpend').
  set (displayed := playerStep config p (AnimationFrame tPause)) in *.
  clearbody displayed.
  assert (Hpaused : playerStep config displayed TogglePlay =
                    mkPlayer false (currentFrame displayed) false (shown displayed)).
  { cbn. rewrite Hplay'. reflexivity. }
  rewrite Hpaused. rewrite paused_player_idle by reflexivity.
  cbn. rewrite Hframe, Hshown. repeat split; intros H; exact H.
Qed.

Lemma pause_freezes_resume_follows_clock_witness :
  currentFrame
    (playerRun (mkConfig 2 2 4 10 1 None true DirRow) mountPlayer
       [AnimationFrame 120; TogglePlay; AnimationFrame 500; TogglePlay;
        AnimationFrame 730])
  = frameIndexAt (mkConfig 2 2 4 10 1 None true DirRow) 730.
Proof.
  apply (pause_freezes_resume_follows_clock
           (mkConfig 2 2 4 10 1 None true DirRow) mountPlayer 120 730 [500%Q]);
    [simpl; lia | simpl; lia | reflexivity | reflexivity].
Defined.

(** C9, as stated, fails: at 10 fps with 4 frames, a player paused on
    index 0 and resumed 250 ms later shows index 2 first. *)
Lemma resume_jumps :
  currentFrame
    (playerRun (mkConfig 2 2 4 10 1 None true DirRow) mountPlayer
       [AnimationFrame 0; TogglePlay]) = 0
  /\
  currentFrame
    (playerRun (mkConfig 2 2 4 10 1 None true DirRow) mountPlayer
       [AnimationFrame 0; TogglePlay; TogglePlay; AnimationFrame 250]) = 2.
Proof. split; vm_compute; reflexivity. Qed.

(** ** The export loop on any [totalFrames] *)

Lemma range_snoc (n : nat) :
  JS.range (Z.of_nat (S n)) = JS.range (Z.of_nat n) ++ [Z.of_nat n].
Proof.
  unfold JS.range. rewrite !Nat2Z.id, seq_S, map_app. reflexivity.
Qed.

Lemma range_nonpos (n : Z) : n <= 0 -> JS.range n = [].
Proof.
  intros Hn. unfold JS.range.
  replace (Z.to_nat n) with 0%nat by lia. reflexivity.
Qed.

(** Keeping the indices below a bound shortens the range to the bound. *)
Lemma range_filter_below (n bound : Z) :
  0 <= bound ->
  filter (fun i => i <? bound) (JS.range n) = JS.range (Z.min n bound).
Proof.
  intros Hb. destruct (Z.le_gt_cases n 0) as [Hn | Hn].
  - rewrite !range_nonpos by lia. reflexivity.
  - rewrite <- (Z2Nat.id n) by lia. generalize (Z.to_nat n) as k. clear n Hn.
    induction k as [|k IH].
    + cbn. rewrite range_nonpos by lia. reflexivity.
    + rewrite range_snoc, filter_app, IH. cbn [filter].
      destruct (Z.ltb_spec (Z.of_nat k) bound) as [Hlt | Hge].
      * replace (Z.min (Z.of_nat (S k)) bound) with (Z.of_nat (S (Z.to_nat (Z.min (Z.of_nat k) bound)))) by lia.
        rewrite range_snoc. f_equal; [f_equal; lia | f_equal; lia].
      * rewrite app_nil_r. f_equal. lia.
Qed.

Section ExportLoopGeneral.

Variable config : SpriteConfig.
Variables frameWidth frameHeight delay : Q.

Hypothesis rows_pos : 1 <= rows config.
Hypothesis cols_pos : 1 <= cols config.

Lemma exportStep_past_grid (canvas : Canvas) (frames : list Frame) (i : Z) :
  rows config * cols config <= i ->
  exportStep config frameWidth frameHeight delay (canvas, frames) i = (canvas, frames).
Proof.
  intros Hi. pose proof (safety_check_skips config rows_pos cols_pos i Hi) as Hcheck.
  unfold exportStep. destruct (cellOfIndex config i) as [row col].
  cbn [fst snd] in Hcheck. now rewrite Hcheck.
Qed.

(** Whatever non-negative indices the loop visits, the frames added are
    those of the indices inside the grid, in order. *)
Lemma export_loop_general (indices : list Z) :
  forall (canvas : Canvas) (frames : list Frame),
  (forall i, In i indices -> 0 <= i) ->
  snd (fold_left (exportStep config frameWidth frameHeight delay) indices
         (canvas, frames)) =
  frames ++ map (frameAt config (canvas_width canvas) (canvas_height canvas)
                         frameWidth frameHeight delay)
                (filter (fun i => i <? rows config * cols config) indices).
Proof.
  induction indices as [|i rest IH]; intros canvas frames Hin.
  - cbn. now rewrite app_nil_r.
  - cbn [fold_left filter].
    assert (Hi : 0 <= i) by (apply Hin; now left).
    assert (Hrest : forall j, In j rest -> 0 <= j) by (intros j Hj; apply Hin; now right).
    destruct (Z.ltb_spec i (rows config * cols config)) as [Hlt | Hge].
    + rewrite exportStep_in_grid by (try assumption; lia).
      rewrite IH by exact Hrest.
      destruct (frameAt_canvas_size config frameWidth frameHeight delay
                  (canvas_width canvas) (canvas_height canvas) i) as [-> ->].
      cbn [map]. now rewrite <- app_assoc.
    + rewrite exportStep_past_grid by exact Hge. now apply IH.
Qed.

End ExportLoopGeneral.

Lemma generateGif_frames_general (config : SpriteConfig) (dimensions : ImageDimensions) :
  1 <= rows config -> 1 <= cols config ->
  exists gif,
    generateGif true config dimensions = inr gif /\
    gif_frames gif =
      map (frameAt config
             (canvasWidthOf config dimensions) (canvasHeightOf config dimensions)
             (frameWidthOf config dimensions) (frameHeightOf config dimensions)
             (delayOf config))
          (JS.range (Z.min (totalFrames config) (rows config * cols config))).
Proof.
  intros Hr Hc. eexists. split; [reflexivity|]. cbn [gif_frames].
  rewrite export_loop_general; try assumption.
  - cbn [app canvas_width canvas_height]. rewrite range_filter_below by nia. reflexivity.
  - intros i Hi. apply range_In in Hi. lia.
Qed.

(** ** Cells and indices, the other way round *)


Lemma sequenceIndexOf_range (config : SpriteConfig) (visualRow visualCol : Z) :
  0 <= visualRow < rows config -> 0 <= visualCol < cols config ->
  0 <= sequenceIndexOf config visualRow visualCol < rows config * cols config.
Proof.
  intros Hr Hc. unfold sequenceIndexOf. destruct (direction config); nia.
Qed.

Lemma floor_div_rem_of_cell (major minor n : Z) :
  0 <= major -> 0 <= minor < n ->
  JS.floor_div (major * n + minor) n = major /\
  JS.rem (major * n + minor) n = minor.
Proof.
  intros Hmajor Hminor. split.
  - unfold JS.floor_div. rewrite Z.div_add_l by lia.
    rewrite Z.div_small by lia. lia.
  - rewrite rem_nonneg by nia.
    rewrite Z.add_comm, Z.mod_add by lia. apply Z.mod_small. lia.
Qed.

Lemma cellOfIndex_sequenceIndexOf (config : SpriteConfig) (visualRow visualCol : Z) :
  0 <= visualRow < rows config -> 0 <= visualCol < cols config ->
  cellOfIndex config (sequenceIndexOf config visualRow visualCol)
    = (visualRow, visualCol).
Proof.
  intros Hr Hc. unfold cellOfIndex, sequenceIndexOf.
  destruct (direction config).
  - destruct (floor_div_rem_of_cell visualRow visualCol (cols config)) as [-> ->];
      [lia | lia | reflexivity].
  - destruct (floor_div_rem_of_cell visualCol visualRow (rows config)) as [-> ->];
      [lia | lia | reflexivity].
Qed.

(** X2. A cell of the grid, turned into its sequence index by the overlay
    and back into a cell by the exporter's computation, is the same cell, in
    both directions: with the index-to-cell round trip this makes the two
    computations inverse bijections between the grid and
    [0 .. rows * cols - 1]. *)
Theorem cell_index_roundtrip (config : SpriteConfig) (visualRow visualCol : Z) :
  0 <= visualRow < rows config -> 0 <= visualCol < cols config ->
  cellOfIndex config (sequenceIndexOf config visualRow visualCol)
    = (visualRow, visualCol) /\
  0 <= sequenceIndexOf config visualRow visualCol < rows config * cols config.
Proof.
  intros Hr Hc. split;
    [now apply cellOfIndex_sequenceIndexOf | now apply sequenceIndexOf_range].
Qed.

Lemma cell_index_roundtrip_witness :
  cellOfIndex (mkConfig 2 3 6 12 1 None true DirColumn)
    (sequenceIndexOf (mkConfig 2 3 6 12 1 None true DirColumn) 1 2) = (1, 2).
Proof.
  apply (cell_index_roundtrip (mkConfig 2 3 6 12 1 None true DirColumn) 1 2);
    simpl; lia.
Defined.

(** ** How many cells the overlay shows active *)

Lemma filter_length_perm {A : Type} (f : A -> bool) (l l' : list A) :
  Permutation l l' -> length (filter f l) = length (filter f l').
Proof.
  induction 1 as [| x l l' _ IH | x y l | l l' l'' _ IH1 _ IH2]; cbn.
  - reflexivity.
  - destruct (f x); cbn; now rewrite IH.
  - destruct (f x), (f y); reflexivity.
  - now rewrite IH1.
Qed.

Lemma range_NoDup (n : Z) : NoDup (JS.range n).
Proof.
  unfold JS.range. apply Finite.Injective_map_NoDup; [|apply seq_NoDup].
  intros a b Hab. lia.
Qed.

(** The sequence indices of the overlay cells, read in visual order, are
    the indices [0 .. rows * cols - 1], each once. *)
Lemma overlay_indices_permutation (config : SpriteConfig) :
  1 <= rows config -> 1 <= cols config ->
  Permutation
    (map (fun i => cell_sequenceIndex (overlayCell config i))
         (JS.range (rows config * cols config)))
    (JS.range (rows config * cols config)).
Proof.
  intros Hr Hc. apply NoDup_Permutation_bis.
  - apply Finite.Injective_map_NoDup_in; [|apply range_NoDup].
    intros i j Hi Hj Heq. apply range_In in Hi, Hj.
    cbn [overlayCell cell_sequenceIndex] in Heq.
    assert (Hcell : forall k, 0 <= k < rows config * cols config ->
              cellOfIndex config
                (sequenceIndexOf config (JS.floor_div k (cols config))
                                         (JS.rem k (cols config)))
              = (JS.floor_div k (cols config), JS.rem k (cols config))).
    { intros k Hk. apply cellOfIndex_sequenceIndexOf;
        [apply floor_div_range | apply rem_range]; lia. }
    pose proof (Hcell i Hi) as Hci. pose proof (Hcell j Hj) as Hcj.
    rewrite Heq, Hcj in Hci. injection Hci as Hdiv Hrem.
    pose proof (floor_div_rem i (cols config)) as Ei.
    pose proof (floor_div_rem j (cols config)) as Ej.
    rewrite <- Ei, <- Ej by lia. now rewrite Hdiv, Hrem.
  - rewrite length_map. lia.
  - intros s Hs. apply in_map_iff in Hs. destruct Hs as [i [<- Hi]].
    apply range_In in Hi. apply range_In.
    cbn [overlayCell cell_sequenceIndex]. apply sequenceIndexOf_range;
      [apply floor_div_range | apply rem_range]; lia.
Qed.

(** X5. With an image shown on a grid with [rows, cols >= 1], the number of
    cells the overlay shows active is [totalFrames], cut to the range
    [0 .. rows * cols]; with a [totalFrames] the grid can hold, exactly
    [totalFrames] cells are active, in either direction. *)
Theorem overlay_active_count (config : SpriteConfig) (renderedWidth : Z)
    (cells : list OverlayCell) :
  1 <= rows config -> 1 <= cols config ->
  renderGridOverlay true config renderedWidth = Some cells ->
  Z.of_nat (length (filter cell_isActive cells)) =
    Z.max 0 (Z.min (totalFrames config) (rows config * cols config)).
Proof.
  intros Hr Hc Hcells. unfold renderGridOverlay in Hcells.
  destruct (negb true || (cols config <=? 0) || (rows config <=? 0) || (renderedWidth =? 0));
    [discriminate|].
  injection Hcells as <-.
  assert (Hfilter : forall l,
            length (filter cell_isActive (map (overlayCell config) l)) =
            length (filter (fun s => s <? totalFrames config)
                      (map (fun i => cell_sequenceIndex (overlayCell config i)) l))).
  { induction l as [|i l IH]; [reflexivity|]. cbn [map filter].
    cbn [overlayCell cell_isActive cell_sequenceIndex] in *.
    destruct (_ <? totalFrames config); cbn [length]; now rewrite IH. }
  rewrite Hfilter.
  rewrite (filter_length_perm _ _ _ (overlay_indices_permutation config Hr Hc)).
  destruct (Z.le_gt_cases 0 (totalFrames config)) as [Ht | Ht].
  - rewrite range_filter_below by exact Ht. rewrite range_length. lia.
  - assert (Hnone : forall l, (forall i, In i l -> 0 <= i) ->
              filter (fun s => s <? totalFrames config) l = []).
    { induction l as [|i l IH]; intros Hl; [reflexivity|]. cbn [filter].
      destruct (Z.ltb_spec i (totalFrames config)) as [Hlt | _].
      - specialize (Hl i (or_introl eq_refl)). lia.
      - apply IH. intros j Hj. apply Hl. now right. }
    rewrite Hnone; [cbn; lia|]. intros i Hi. apply range_In in Hi. lia.
Qed.

Lemma overlay_active_count_witness :
  Z.of_nat (length (filter cell_isActive
    (map (overlayCell (mkConfig 3 4 7 12 1 None true DirColumn)) (JS.range 12))))
  = Z.max 0 (Z.min 7 (3 * 4)).
Proof.
  apply (overlay_active_count (mkConfig 3 4 7 12 1 None true DirColumn) 320);
    [simpl; lia | simpl; lia | reflexivity].
Defined.

(** ** The preview's frame index *)

Lemma inject_Z_pos (b : Z) : 0 < b -> (0 < inject_Z b)%Q.
Proof. intros Hb. change 0%Q with (inject_Z 0). now rewrite <- Zlt_Qlt. Qed.


(** The floor of a quotient inside [k, k + 1) is [k]. *)
Lemma floor_between (x : Q) (k : Z) :
  (inject_Z k <= x)%Q -> (x < inject_Z (k + 1))%Q -> JS.floor x = k.
Proof.
  intros Hlo Hhi. unfold JS.floor.
  pose proof (Qfloor_resp_le _ _ Hlo) as H1. rewrite Qfloor_Z in H1.
  pose proof (Qfloor_le x) as H2.
  assert (H3 : (inject_Z (Qfloor x) < inject_Z (k + 1))%Q)
    by (eapply Qle_lt_trans; eassumption).
  rewrite <- Zlt_Qlt in H3. lia.
Qed.


(** The preview has no safety check of its own: with more frames than
    cells it asks for a cell past the grid. *)
Example preview_past_grid :
  shown (animate (mkConfig 2 2 6 10 1 None true DirRow) 500 mountPlayer)
  = Some (2, 1).
Proof. reflexivity. Qed.

(** ** More on applyChromaKey *)

Lemma chromaKeyPixel_cases (rBg gBg bBg : Z) (p : Pixel) :
  chromaKeyPixel rBg gBg bBg p = keyPixel \/
  (chromaKeyPixel rBg gBg bBg p = p /\ 10 <= chA p /\
   matchesKeyCondition rBg gBg bBg p = false).
Proof.
  unfold chromaKeyPixel.
  destruct (matchesKeyCondition rBg gBg bBg p) eqn:Hm; [now left|right].
  split; [reflexivity|]. split; [|reflexivity].
  unfold matchesKeyCondition in Hm. apply orb_false_iff in Hm.
  destruct Hm as [_ Ha]. apply Z.ltb_ge in Ha. exact Ha.
Qed.

(** X8. After the chroma key no pixel of the buffer is nearly transparent:
    every alpha is at least 10, each pixel is either the opaque key colour
    or the input pixel at its place, and the pixel at (0,0) is the key
    colour. *)
Theorem applyChromaKey_output (data : ImageData) :
  Forall (fun p => 10 <= chA p) (applyChromaKey data) /\
  (forall k p q, nth_error data k = Some p ->
                 nth_error (applyChromaKey data) k = Some q ->
                 q = keyPixel \/ q = p) /\
  (data <> [] -> nth_error (applyChromaKey data) 0 = Some keyPixel).
Proof.
  destruct data as [|p0 rest].
  - split; [constructor|]. split; [|congruence]. intros k p q Hk. now destruct k.
  - rewrite applyChromaKey_cons. repeat split.
    + apply Forall_map, Forall_forall. intros p _.
      destruct (chromaKeyPixel_cases (chR p0) (chG p0) (chB p0) p)
        as [-> | (-> & Ha & _)]; [cbn; lia | exact Ha].
    + intros k p q Hk Hq. rewrite nth_error_map, Hk in Hq. cbn in Hq.
      injection Hq as <-.
      destruct (chromaKeyPixel_cases (chR p0) (chG p0) (chB p0) p)
        as [-> | (-> & _)]; tauto.
    + intros _. cbn [map nth_error]. unfold chromaKeyPixel.
      now rewrite matchesKeyCondition_self.
Qed.

(** X9. A pixel that already is the opaque key colour stays so, whatever
    the reference colour: the key-colour fill under a frame survives the
    chroma key wherever the drawn slice left it. *)
Theorem applyChromaKey_keeps_key (data : ImageData) (k : nat) :
  nth_error data k = Some keyPixel ->
  nth_error (applyChromaKey data) k = Some keyPixel.
Proof.
  intros Hk. destruct data as [|p0 rest]; [now destruct k|].
  rewrite applyChromaKey_cons, nth_error_map, Hk. cbn [option_map]. f_equal.
  destruct (chromaKeyPixel_cases (chR p0) (chG p0) (chB p0) keyPixel)
    as [H | (H & _)]; exact H.
Qed.

Lemma applyChromaKey_keeps_key_witness :
  nth_error (applyChromaKey [mkPixel 0 0 0 255; mkPixel 255 0 255 255]) 1
  = Some keyPixel.
Proof.
  apply (applyChromaKey_keeps_key [mkPixel 0 0 0 255; mkPixel 255 0 255 255] 1).
  reflexivity.
Defined.

(** X10. A second pass may still key pixels, a third never does: from the
    second pass on the reference is the key colour, and what is within its
    tolerance is gone. *)
Theorem applyChromaKey_stable_after_two (data : ImageData) :
  applyChromaKey (applyChromaKey (applyChromaKey data)) =
  applyChromaKey (applyChromaKey data).
Proof.
  destruct data as [|p0 rest]; [reflexivity|].
  destruct (applyChromaKey_head p0 rest) as [rest1 [H1 _]]. rewrite H1.
  destruct (applyChromaKey_head keyPixel rest1) as [rest2 [H2 Hrest2]].
  rewrite H2. rewrite applyChromaKey_cons. cbn [map].
  assert (Hkey : chromaKeyPixel (chR keyPixel) (chG keyPixel) (chB keyPixel) keyPixel
                 = keyPixel).
  { unfold chromaKeyPixel. now rewrite matchesKeyCondition_self. }
  rewrite Hkey. apply f_equal.
  rewrite Hrest2, map_map. apply map_ext. intros p.
  destruct (chromaKeyPixel_cases (chR keyPixel) (chG keyPixel) (chB keyPixel) p)
    as [-> | (-> & _ & Hkeep)].
  - exact Hkey.
  - unfold chromaKeyPixel. now rewrite Hkeep.
Qed.

(** A buffer of one colour is keyed whole. *)
Lemma applyChromaKey_uniform (p : Pixel) (n : nat) :
  applyChromaKey (repeat p n) = repeat keyPixel n.
Proof.
  assert (Hmap : forall m, map (chromaKeyPixel (chR p) (chG p) (chB p)) (repeat p m)
                           = repeat keyPixel m).
  { induction m as [|m IH]; [reflexivity|]. cbn [repeat map]. rewrite IH.
    apply (f_equal (fun q => q :: repeat keyPixel m)).
    unfold chromaKeyPixel. now rewrite matchesKeyCondition_self. }
  destruct n as [|n]; [reflexivity|]. cbn [repeat].
  rewrite applyChromaKey_cons. exact (Hmap (S n)).
Qed.

(** ** More on updateConfig *)

(** X11. A full grid stays full: when [totalFrames = rows * cols], every
    update of a key other than [totalFrames] leaves it so. *)
Theorem updateConfig_keeps_full_grid
    (prev : SpriteConfig) (key : Key) (value : ValueOf key) :
  key <> KTotalFrames ->
  totalFrames prev = rows prev * cols prev ->
  totalFrames (updateConfig key value prev) =
    rows (updateConfig key value prev) * cols (updateConfig key value prev).
Proof.
  intros Hkey Hfull. pose proof (proj2 (Z.eqb_eq _ _) Hfull) as Heqb.
  destruct key; try congruence; unfold updateConfig; cbn [spread];
    try rewrite Heqb; cbn; try reflexivity; exact Hfull.
Qed.

Lemma updateConfig_keeps_full_grid_witness :
  totalFrames (updateConfig KCols 7 INITIAL_CONFIG) =
    rows (updateConfig KCols 7 INITIAL_CONFIG)
    * cols (updateConfig KCols 7 INITIAL_CONFIG).
Proof.
  apply (updateConfig_keeps_full_grid INITIAL_CONFIG KCols 7);
    [discriminate | reflexivity].
Defined.

(** X12. An update made twice has the effect of the update made once. *)
Theorem updateConfig_twice (prev : SpriteConfig) (key : Key) (value : ValueOf key) :
  updateConfig key value (updateConfig key value prev) = updateConfig key value prev.
Proof.
  destruct key; try reflexivity; unfold updateConfig; cbn [spread];
    destruct (Z.eqb_spec (totalFrames prev) (rows prev * cols prev)) as [Hfull | Hpart];
    cbn -[Z.mul Z.eqb];
    try (rewrite Z.eqb_refl; reflexivity);
    match goal with
    | |- context [?a =? ?b] => destruct (Z.eqb_spec a b) as [E | E]
    end; unfold setTotalFrames; cbn -[Z.mul]; congruence.
Qed.

(** The Rows and Cols inputs never store 0: an empty or zero entry
    becomes 1, so that, from the initial configuration, no sequence of
    entries in the two inputs leaves a zero divisor in the grid.  Negative
    entries are stored as typed. *)
Lemma grid_inputs_never_zero (entries : list (bool * option Z)) :
  let final :=
    fold_left (fun (config : SpriteConfig) (entry : bool * option Z) =>
                 if fst entry then onRowsChange (snd entry) config
                 else onColsChange (snd entry) config)
              entries INITIAL_CONFIG in
  rows final <> 0 /\ cols final <> 0.
Proof.
  cbv zeta.
  assert (Hinit : rows INITIAL_CONFIG <> 0 /\ cols INITIAL_CONFIG <> 0)
    by (cbn; lia).
  revert Hinit. generalize INITIAL_CONFIG as config.
  induction entries as [|[isRows parsed] rest IH]; intros config Hconfig;
    [exact Hconfig|].
  cbn [fold_left fst snd]. apply IH.
  assert (Hone : JS.or_one parsed <> 0).
  { unfold JS.or_one. destruct parsed as [v|]; [|lia].
    destruct (Z.eqb_spec v 0); lia. }
  destruct isRows; unfold onRowsChange, onColsChange, updateConfig; cbn [spread];
    destruct (totalFrames config =? rows config * cols config); cbn; tauto.
Qed.

(** ** handleAutoDetect *)

(** X13. An analysis that reports [rows] and [cols] of at least 1, or
    leaves them out, and a [totalFrames] inside the reported grid, or none,
    takes a configuration with the grid invariant to one with it; without a
    reported [totalFrames] the grid is taken as full.  The fields outside
    the grid keep their values. *)
Theorem detectedConfig_invariant (result : DetectResult) (prev : SpriteConfig) :
  GridInvariant prev ->
  (forall v, res_rows result = Some v -> 1 <= v) ->
  (forall v, res_cols result = Some v -> 1 <= v) ->
  (forall t, res_totalFrames result = Some t ->
     1 <= t <= nullishOr (res_rows result) (rows prev)
               * nullishOr (res_cols result) (cols prev)) ->
  let next := handleAutoDetect true (Some result) prev in
  GridInvariant next /\
  (res_totalFrames result = None -> totalFrames next = rows next * cols next) /\
  fps next = fps prev /\ scale next = scale prev /\
  direction next = direction prev /\
  autoTransparent next = autoTransparent prev /\
  transparent next = transparent prev.
Proof.
  unfold GridInvariant. intros (Hr & Hc & Ht) Hrows Hcols Htotal. cbv zeta.
  cbn [handleAutoDetect negb detectedConfig rows cols totalFrames fps scale
       direction autoTransparent transparent].
  assert (Hfr : falsyOr (res_rows result) (rows prev)
                = nullishOr (res_rows result) (rows prev)).
  { unfold falsyOr, nullishOr. destruct (res_rows result) as [v|]; [|reflexivity].
    specialize (Hrows v eq_refl). destruct (Z.eqb_spec v 0); [lia|reflexivity]. }
  assert (Hfc : falsyOr (res_cols result) (cols prev)
                = nullishOr (res_cols result) (cols prev)).
  { unfold falsyOr, nullishOr. destruct (res_cols result) as [v|]; [|reflexivity].
    specialize (Hcols v eq_refl). destruct (Z.eqb_spec v 0); [lia|reflexivity]. }
  rewrite Hfr, Hfc.
  assert (Hnr : 1 <= nullishOr (res_rows result) (rows prev)).
  { unfold nullishOr. destruct (res_rows result) as [v|]; [now apply Hrows | exact Hr]. }
  assert (Hnc : 1 <= nullishOr (res_cols result) (cols prev)).
  { unfold nullishOr. destruct (res_cols result) as [v|]; [now apply Hcols | exact Hc]. }
  repeat split; try assumption.
  - destruct (res_totalFrames result) as [t|]; cbn [nullishOr].
    + now apply Htotal.
    + nia.
  - destruct (res_totalFrames result) as [t|]; cbn [nullishOr].
    + now apply Htotal.
    + lia.
  - intros ->. reflexivity.
Qed.

Lemma detectedConfig_invariant_witness :
  GridInvariant
    (handleAutoDetect true (Some (mkDetectResult (Some 3) None (Some 10)))
                      INITIAL_CONFIG).
Proof.
  apply (detectedConfig_invariant (mkDetectResult (Some 3) None (Some 10))
           INITIAL_CONFIG).
  - unfold GridInvariant; simpl; lia.
  - simpl. intros v Hv. injection Hv as <-. lia.
  - simpl. intros v Hv. discriminate.
  - simpl. intros t Ht. injection Ht as <-. lia.
Defined.

(** A reported 0 is stored as it is, while the default [totalFrames] is
    computed with the previous value in its place. *)
Example detectedConfig_zero_rows :
  handleAutoDetect true (Some (mkDetectResult (Some 0) (Some 5) None)) INITIAL_CONFIG
  = mkConfig 0 5 20 12 1 None true DirRow.
Proof. reflexivity. Qed.

(** ** retryOperation *)

Section Retry.

Context {T : Type}.
Variable operation : nat -> ApiError + T.

Lemma backoff_S (delay : Z) (n : nat) :
  backoff delay (S n) = delay :: backoff (delay * 2) n.
Proof.
  unfold backoff. cbn [seq map]. rewrite Z.pow_0_r, Z.mul_1_r. f_equal.
  rewrite <- seq_shift, map_map. apply map_ext. intros j.
  rewrite Nat2Z.inj_succ, Z.pow_succ_r by lia. lia.
Qed.

Lemma backoff_sum (delay : Z) (n : nat) :
  fold_right Z.add 0 (backoff delay n) = delay * (2 ^ Z.of_nat n - 1).
Proof.
  revert delay. induction n as [|n IH]; intros delay.
  - cbn. lia.
  - rewrite backoff_S. cbn [fold_right]. rewrite IH.
    rewrite Nat2Z.inj_succ, Z.pow_succ_r by lia. lia.
Qed.

(** A run is its calls: it ends with the outcome of the last call, every
    call before it threw an overload error, and the sleeps between the
    calls double. *)
Lemma retry_run_shape (retries : nat) :
  forall (attempt : nat) (delay : Z),
  let run := retryOperation operation attempt retries delay in
  (1 <= run_calls run <= S retries)%nat /\
  run_result run = operation (attempt + run_calls run - 1)%nat /\
  run_sleeps run = backoff delay (run_calls run - 1) /\
  (forall j, (j < run_calls run - 1)%nat ->
     exists error, operation (attempt + j)%nat = inl error /\
                   isOverloaded error = true) /\
  ((run_calls run <= retries)%nat ->
   forall error, run_result run = inl error -> isOverloaded error = false).
Proof.
  induction retries as [|retries IH]; intros attempt delay; cbv zeta.
  - cbn [retryOperation]. destruct (operation attempt) as [error | value] eqn:Hop;
      cbn [run_calls run_result run_sleeps];
      (split; [lia|]); (split; [now rewrite Nat.add_sub, <- Hop; f_equal; lia|]);
      (split; [reflexivity|]); (split; [intros j Hj; lia|]); intros Hle; lia.
  - cbn [retryOperation]. destruct (operation attempt) as [error | value] eqn:Hop.
    + destruct (isOverloaded error) eqn:Hover.
      * specialize (IH (S attempt) (delay * 2)). cbv zeta in IH.
        set (later := retryOperation operation (S attempt) retries (delay * 2)) in *.
        destruct IH as (Hcalls & Hres & Hsleeps & Hbefore & Hlast).
        cbn [run_calls run_result run_sleeps].
        split; [lia|]. split.
        { rewrite Hres. f_equal. lia. }
        split.
        { rewrite Hsleeps. replace (S (run_calls later) - 1)%nat
            with (S (run_calls later - 1)) by lia. now rewrite backoff_S. }
        split.
        { intros [|j] Hj.
          - exists error. rewrite Nat.add_0_r. split; assumption.
          - destruct (Hbefore j) as [e [He Ho]]; [lia|].
            exists e. split; [|exact Ho]. rewrite <- He. f_equal. lia. }
        intros Hle err Herr. apply Hlast; [lia | exact Herr].
      * cbn [run_calls run_result run_sleeps].
        split; [lia|]. split; [rewrite <- Hop; f_equal; lia|].
        split; [reflexivity|]. split; [intros j Hj; lia|].
        intros _ err Herr. injection Herr as <-. exact Hover.
    + cbn [run_calls run_result run_sleeps].
      split; [lia|]. split; [rewrite <- Hop; f_equal; lia|].
      split; [reflexivity|]. split; [intros j Hj; lia|].
      intros _ err Herr. discriminate.
Qed.

(** After [n] overload errors the run goes on as a run with [n] retries
    less and the delay doubled [n] times. *)
Lemma retry_after_overloads (n : nat) :
  forall (attempt retries : nat) (delay : Z),
  (n <= retries)%nat ->
  (forall j, (j < n)%nat ->
     exists error, operation (attempt + j)%nat = inl error /\
                   isOverloaded error = true) ->
  let later :=
    retryOperation operation (attempt + n) (retries - n) (delay * 2 ^ Z.of_nat n) in
  retryOperation operation attempt retries delay =
  mkRetryRun (run_result later) (n + run_calls later)
             (backoff delay n ++ run_sleeps later).
Proof.
  induction n as [|n IH]; intros attempt retries delay Hn Hfail; cbv zeta.
  - rewrite Nat.add_0_r, Nat.sub_0_r, Z.pow_0_r, Z.mul_1_r. cbn.
    now destruct (retryOperation operation attempt retries delay).
  - destruct retries as [|retries]; [lia|].
    destruct (Hfail 0%nat) as [error [Hop Hover]]; [lia|].
    rewrite Nat.add_0_r in Hop. cbn [retryOperation]. rewrite Hop, Hover.
    rewrite (IH (S attempt) retries (delay * 2)).
    + cbn [run_result run_calls run_sleeps]. rewrite backoff_S.
      replace (S attempt + n)%nat with (attempt + S n)%nat by lia.
      replace (S retries - S n)%nat with (retries - n)%nat by lia.
      replace (delay * 2 * 2 ^ Z.of_nat n) with (delay * 2 ^ Z.of_nat (S n))
        by (rewrite Nat2Z.inj_succ, Z.pow_succ_r by lia; lia).
      reflexivity.
    + lia.
    + intros j Hj. destruct (Hfail (S j)) as [e [He Ho]]; [lia|].
      exists e. split; [|exact Ho]. rewrite <- He. f_equal. lia.
Qed.

(** X14. Whatever the operation does, [retryOperation] calls it at least
    once and at most [retries + 1] times, resolves or throws with what the
    last call gave, and sleeps [delay], [2 * delay], [4 * delay], ... between
    the calls: less than [delay * 2 ^ retries] in all.  With the defaults
    that is at most 4 calls and 7000 ms. *)
Theorem retry_bounded (attempt retries : nat) (delay : Z) :
  0 <= delay ->
  let run := retryOperation operation attempt retries delay in
  (1 <= run_calls run <= retries + 1)%nat /\
  run_result run = operation (attempt + run_calls run - 1)%nat /\
  run_sleeps run = backoff delay (run_calls run - 1) /\
  fold_right Z.add 0 (run_sleeps run) <= delay * (2 ^ Z.of_nat retries - 1) /\
  ((run_calls (retryOperationDefault operation) <= 4)%nat /\
   fold_right Z.add 0 (run_sleeps (retryOperationDefault operation)) <= 7000).
Proof.
  intros Hdelay. cbv zeta.
  assert (Hsum : forall a r d, 0 <= d ->
            fold_right Z.add 0 (run_sleeps (retryOperation operation a r d))
            <= d * (2 ^ Z.of_nat r - 1)).
  { intros a r d Hd.
    destruct (retry_run_shape r a d) as (Hcalls & _ & Hsleeps & _).
    rewrite Hsleeps, backoff_sum. apply Z.mul_le_mono_nonneg_l; [exact Hd|].
    assert (2 ^ Z.of_nat (run_calls (retryOperation operation a r d) - 1)
            <= 2 ^ Z.of_nat r) by (apply Z.pow_le_mono_r; lia).
    lia. }
  destruct (retry_run_shape retries attempt delay) as (Hcalls & Hres & Hsleeps & _).
  split; [lia|]. split; [exact Hres|]. split; [exact Hsleeps|].
  split; [now apply Hsum|]. unfold retryOperationDefault. split.
  - destruct (retry_run_shape 3 0 1000) as (H & _). lia.
  - apply (Hsum 0%nat 3%nat 1000). lia.
Qed.

(** X15. When the first [n <= retries] calls throw overload errors and the
    next call resolves, [retryOperation] resolves with that value after
    [n + 1] calls and [n] sleeps. *)
Theorem retry_succeeds_after_overloads
    (attempt retries n : nat) (delay : Z) (value : T) :
  (n <= retries)%nat ->
  (forall j, (j < n)%nat ->
     exists error, operation (attempt + j)%nat = inl error /\
                   isOverloaded error = true) ->
  operation (attempt + n)%nat = inr value ->
  retryOperation operation attempt retries delay =
  mkRetryRun (inr value) (n + 1) (backoff delay n).
Proof.
  intros Hn Hfail Hok. rewrite (retry_after_overloads n) by assumption.
  cbv zeta. destruct (retries - n)%nat; cbn [retryOperation]; rewrite Hok;
    cbn [run_result run_calls run_sleeps]; now rewrite app_nil_r.
Qed.

(** X16. An error that is not an overload error is thrown again at once:
    after [n <= retries] overload errors, such an error ends the run at
    call [n + 1] with no further sleep, whatever retries are left. *)
Theorem retry_rethrows_other_errors
    (attempt retries n : nat) (delay : Z) (error : ApiError) :
  (n <= retries)%nat ->
  (forall j, (j < n)%nat ->
     exists e, operation (attempt + j)%nat = inl e /\ isOverloaded e = true) ->
  operation (attempt + n)%nat = inl error ->
  isOverloaded error = false ->
  retryOperation operation attempt retries delay =
  mkRetryRun (inl error) (n + 1) (backoff delay n).
Proof.
  intros Hn Hfail Herr Hother. rewrite (retry_after_overloads n) by assumption.
  cbv zeta. destruct (retries - n)%nat; cbn [retryOperation]; rewrite Herr;
    try rewrite Hother; cbn [run_result run_calls run_sleeps];
    now rewrite app_nil_r.
Qed.

(** X17. When every call throws an overload error, [retryOperation] gives
    up after [retries + 1] calls and throws the error of the last one,
    having slept [delay * (2 ^ retries - 1)]. *)
Theorem retry_exhausted (attempt retries : nat) (delay : Z) (last : ApiError) :
  (forall j, (j < retries)%nat ->
     exists e, operation (attempt + j)%nat = inl e /\ isOverloaded e = true) ->
  operation (attempt + retries)%nat = inl last ->
  retryOperation operation attempt retries delay =
    mkRetryRun (inl last) (retries + 1) (backoff delay retries) /\
  fold_right Z.add 0 (backoff delay retries) = delay * (2 ^ Z.of_nat retries - 1).
Proof.
  intros Hfail Hlast. split; [|apply backoff_sum].
  rewrite (retry_after_overloads retries) by (try assumption; lia).
  cbv zeta. rewrite Nat.sub_diag. cbn [retryOperation]. rewrite Hlast.
  cbn [run_result run_calls run_sleeps]. now rewrite app_nil_r.
Qed.

End Retry.

Lemma retry_bounded_witness :
  (run_calls (retryOperation
     (fun k => if (k <? 2)%nat
               then inl (mkApiError (Some 503%Z) None None)
               else inr k) 0 3 1000%Z) <= 3 + 1)%nat.
Proof.
  apply (retry_bounded
           (fun k => if (k <? 2)%nat
                     then inl (mkApiError (Some 503) None None)
                     else inr k) 0 3 1000).
  lia.
Defined.

Lemma retry_succeeds_after_overloads_witness :
  retryOperation
    (fun k => if (k <? 2)%nat
              then inl (mkApiError None None (Some "The model is overloaded"%string))
              else inr k) 0 3 1000
  = mkRetryRun (inr 2%nat) (2 + 1) (backoff 1000 2).
Proof.
  apply (retry_succeeds_after_overloads
           (fun k => if (k <? 2)%nat
                     then inl (mkApiError None None
                                          (Some "The model is overloaded"%string))
                     else inr k) 0 3 2 1000 2%nat).
  - lia.
  - intros j Hj. eexists. destruct j as [|[|j]]; [split; reflexivity .. | lia].
  - reflexivity.
Defined.

Lemma retry_rethrows_other_errors_witness :
  retryOperation (T := nat)
    (fun k => if (k <? 1)%nat
              then inl (mkApiError None (Some 503) None)
              else inl (mkApiError (Some 403) None (Some "PERMISSION_DENIED"%string)))
    0 3 1000
  = mkRetryRun (inl (mkApiError (Some 403) None (Some "PERMISSION_DENIED"%string)))
               (1 + 1) (backoff 1000 1).
Proof.
  apply (retry_rethrows_other_errors (T := nat)
           (fun k => if (k <? 1)%nat
                     then inl (mkApiError None (Some 503) None)
                     else inl (mkApiError (Some 403) None
                                          (Some "PERMISSION_DENIED"%string)))
           0 3 1 1000).
  - lia.
  - intros j Hj. eexists. destruct j as [|j]; [split; reflexivity | lia].
  - reflexivity.
  - reflexivity.
Defined.

Lemma retry_exhausted_witness :
  retryOperation (T := nat)
    (fun k => inl (mkApiError (Some 503) None None)) 0 3 1000
  = mkRetryRun (inl (mkApiError (Some 503) None None)) (3 + 1) (backoff 1000 3).
Proof.
  apply (retry_exhausted (T := nat)
           (fun k => inl (mkApiError (Some 503) None None)) 0 3 1000).
  - intros j Hj. eexists. split; reflexivity.
  - reflexivity.
Defined.

(** ** determineAspectRatio *)

Lemma Qlt_bool_iff (a b : Q) : Qlt_bool a b = true <-> (a < b)%Q.
Proof.
  unfold Qlt_bool. rewrite negb_true_iff. split.
  - intros H. apply Qnot_le_lt. intros Hle. apply Qle_bool_iff in Hle. congruence.
  - intros H. destruct (Qle_bool b a) eqn:Hle; [|reflexivity].
    apply Qle_bool_iff in Hle. exfalso. exact (Qlt_not_le _ _ H Hle).
Qed.

(** The search keeps the entry nearest to the ratio among those seen. *)
Lemma closestOf_nearest (ratio : Q) (others : list (string * Q)) :
  forall (first : string * Q) (seen : list (string * Q)) (state : (string * Q) * Q),
  In (fst state) seen ->
  snd state = Qabs (ratio - snd (fst state)) ->
  (forall e, In e seen -> (snd state <= Qabs (ratio - snd e))%Q) ->
  let final := fold_left (closerOf ratio) others state in
  In (fst final) (seen ++ others) /\
  forall e, In e (seen ++ others) ->
    (Qabs (ratio - snd (fst final)) <= Qabs (ratio - snd e))%Q.
Proof.
  induction others as [|candidate rest IH]; intros first seen state Hin Hdiff Hmin;
    cbv zeta.
  - cbn [fold_left]. rewrite app_nil_r. split; [exact Hin|].
    intros e He. rewrite <- Hdiff. now apply Hmin.
  - cbn [fold_left].
    replace (seen ++ candidate :: rest) with ((seen ++ [candidate]) ++ rest)
      by (rewrite <- app_assoc; reflexivity).
    apply (IH first).
    + unfold closerOf. destruct (Qlt_bool _ _); cbn [fst];
        apply in_or_app; [right; now left | now left].
    + unfold closerOf. destruct (Qlt_bool _ _); [reflexivity | exact Hdiff].
    + intros e He. apply in_app_or in He. unfold closerOf.
      destruct (Qlt_bool (Qabs (ratio - snd candidate)) (snd state)) eqn:Hlt;
        cbn [snd].
      * apply Qlt_bool_iff in Hlt. destruct He as [He | [<- | []]].
        -- apply Qle_trans with (snd state); [now apply Qlt_le_weak | now apply Hmin].
        -- apply Qle_refl.
      * destruct He as [He | [<- | []]]; [now apply Hmin|].
        apply Qnot_lt_le. intros Hcontra. apply Qlt_bool_iff in Hcontra. congruence.
Qed.

Lemma determineAspectRatio_nearest (imgWidth imgHeight : Z) :
  exists value,
    In (determineAspectRatio (Some (imgWidth, imgHeight)), value) supported /\
    forall label' value', In (label', value') supported ->
      (Qabs (inject_Z imgWidth / inject_Z imgHeight - value)
       <= Qabs (inject_Z imgWidth / inject_Z imgHeight - value'))%Q.
Proof.
  unfold determineAspectRatio.
  set (ratio := (inject_Z imgWidth / inject_Z imgHeight)%Q).
  pose proof (closestOf_nearest ratio (tl supported) (hd ("1:1"%string, 1.0%Q) supported)
                [hd ("1:1"%string, 1.0%Q) supported]
                (hd ("1:1"%string, 1.0%Q) supported,
                 Qabs (ratio - snd (hd ("1:1"%string, 1.0%Q) supported)))) as H.
  cbv zeta in H. destruct H as [Hin Hmin].
  - now left.
  - reflexivity.
  - intros e [<- | []]. apply Qle_refl.
  - unfold closestOf.
    set (final := fold_left (closerOf ratio) (tl supported) _) in *.
    exists (snd (fst final)). split.
    + destruct (fst final) as [label value]. exact Hin.
    + intros label' value' He. exact (Hmin (label', value') He).
Qed.

(** X18. For an image that loaded with a height of at least 1,
    [determineAspectRatio] answers one of the five supported labels, and no
    supported ratio is nearer to [width / height] than the one of its
    answer; for an image that did not load it answers "1:1". *)
Theorem determineAspectRatio_closest (imgWidth imgHeight : Z) :
  0 <= imgWidth -> 1 <= imgHeight ->
  (exists value,
     In (determineAspectRatio (Some (imgWidth, imgHeight)), value) supported /\
     forall label' value', In (label', value') supported ->
       (Qabs (inject_Z imgWidth / inject_Z imgHeight - value)
        <= Qabs (inject_Z imgWidth / inject_Z imgHeight - value'))%Q)
  /\ determineAspectRatio None = "1:1"%string.
Proof.
  intros _ _. split; [apply determineAspectRatio_nearest | reflexivity].
Qed.

Lemma determineAspectRatio_closest_witness :
  exists value,
    In (determineAspectRatio (Some (1920, 1080)), value) supported.
Proof.
  destruct (determineAspectRatio_closest 1920 1080) as [[value [Hin _]] _];
    [lia | lia |].
  exists value. exact Hin.
Defined.

Example determineAspectRatio_examples :
  determineAspectRatio (Some (1920, 1080)) = "16:9"%string /\
  determineAspectRatio (Some (512, 512)) = "1:1"%string /\
  determineAspectRatio (Some (600, 800)) = "3:4"%string /\
  determineAspectRatio (Some (7, 8)) = "1:1"%string.
Proof. repeat split; vm_compute; reflexivity. Qed.

Lemma supported_values (value : Q) :
  (In ("3:4"%string, value) supported -> value = 0.75%Q) /\
  (In ("9:16"%string, value) supported -> value = 0.5625%Q) /\
  (In ("4:3"%string, value) supported -> value = 1.3333%Q) /\
  (In ("16:9"%string, value) supported -> value = 1.7778%Q).
Proof.
  repeat split; cbn; intros H;
    repeat (destruct H as [H | H]; [inversion H; reflexivity|]); contradiction.
Qed.

(** X19. An image at least as wide as it is high is never given a portrait
    ratio, and one at least as high as it is wide never a landscape
    ratio. *)
Theorem determineAspectRatio_orientation (imgWidth imgHeight : Z) :
  1 <= imgWidth -> 1 <= imgHeight ->
  (imgHeight <= imgWidth ->
   determineAspectRatio (Some (imgWidth, imgHeight)) <> "3:4"%string /\
   determineAspectRatio (Some (imgWidth, imgHeight)) <> "9:16"%string) /\
  (imgWidth <= imgHeight ->
   determineAspectRatio (Some (imgWidth, imgHeight)) <> "4:3"%string /\
   determineAspectRatio (Some (imgWidth, imgHeight)) <> "16:9"%string).
Proof.
  intros Hw Hh.
  destruct (determineAspectRatio_nearest imgWidth imgHeight) as [value [Hin Hmin]].
  set (ratio := (inject_Z imgWidth / inject_Z imgHeight)%Q) in *.
  assert (Hh0 : (0 < inject_Z imgHeight)%Q) by (apply inject_Z_pos; lia).
  pose proof (Hmin "1:1"%string 1.0%Q (or_introl eq_refl)) as Hone.
  destruct (supported_values value) as (H34 & H916 & H43 & H169).
  split; intros Hle.
  - assert (Hratio : (1 <= ratio)%Q).
    { unfold ratio. apply Qle_shift_div_l; [exact Hh0|]. rewrite Qmult_1_l.
      rewrite <- Zle_Qle. exact Hle. }
    split; intros Hlabel; rewrite Hlabel in Hin;
      [apply H34 in Hin | apply H916 in Hin]; subst value;
      revert Hone; rewrite !Qabs_pos by lra; intros Hone; lra.
  - assert (Hratio : (ratio <= 1)%Q).
    { unfold ratio. apply Qle_shift_div_r; [exact Hh0|]. rewrite Qmult_1_l.
      rewrite <- Zle_Qle. exact Hle. }
    split; intros Hlabel; rewrite Hlabel in Hin;
      [apply H43 in Hin | apply H169 in Hin]; subst value;
      revert Hone; rewrite !Qabs_neg by lra; intros Hone; lra.
Qed.

Lemma determineAspectRatio_orientation_witness :
  determineAspectRatio (Some (800, 600)) <> "3:4"%string.
Proof.
  apply (determineAspectRatio_orientation 800 600); lia.
Defined.

(** ** Data URLs *)

Lemma stripPrefix_app (p s : string) : stripPrefix p (p ++ s) = Some s.
Proof.
  induction p as [|a p IH]; [reflexivity|]. cbn. now rewrite Ascii.eqb_refl.
Qed.

Lemma stripPrefix_spec (p s cleaned : string) :
  stripPrefix p s = Some cleaned <-> s = (p ++ cleaned)%string.
Proof.
  split.
  - revert s. induction p as [|a p IH]; intros s H.
    + cbn in H. now injection H as ->.
    + destruct s as [|b s]; [discriminate|]. cbn in H.
      destruct (Ascii.eqb_spec a b) as [<- | _]; [|discriminate].
      cbn. f_equal. now apply IH.
  - intros ->. apply stripPrefix_app.
Qed.

(** X20. Cleaning a data URL made of one of the four image prefixes and a
    payload gives the payload back; in particular the URL that the
    generation calls return is cleaned to the data the response carried. *)
Theorem cleanBase64_of_data_url (payload : string) (data : option string) :
  cleanBase64 ("data:image/png;base64," ++ payload) = payload /\
  cleanBase64 ("data:image/jpeg;base64," ++ payload) = payload /\
  cleanBase64 ("data:image/jpg;base64," ++ payload) = payload /\
  cleanBase64 ("data:image/webp;base64," ++ payload) = payload /\
  cleanBase64 (imageDataUrl data) =
    match data with Some d => d | None => "undefined"%string end.
Proof.
  repeat split.
Qed.

(** X21. Cleaning removes one of the four prefixes from the front of the
    string or changes nothing: the result is the string itself or what
    follows the prefix, and a string that starts with none of them, such as
    a GIF data URL or bare base64 text, is sent as it is. *)
Theorem cleanBase64_cases (base64Image : string) :
  (exists p, In p dataUrlPrefixes /\
             base64Image = (p ++ cleanBase64 base64Image)%string) \/
  (cleanBase64 base64Image = base64Image /\
   forall p rest, In p dataUrlPrefixes -> base64Image <> (p ++ rest)%string).
Proof.
  unfold cleanBase64.
  assert (H : forall prefixes,
            (exists p, In p prefixes /\
                       base64Image = (p ++ stripFirstOf prefixes base64Image)%string) \/
            (stripFirstOf prefixes base64Image = base64Image /\
             forall p rest, In p prefixes -> base64Image <> (p ++ rest)%string)).
  { induction prefixes as [|p prefixes IH].
    - right. split; [reflexivity|]. intros p rest [].
    - cbn [stripFirstOf]. destruct (stripPrefix p base64Image) as [cleaned|] eqn:Hp.
      + left. exists p. split; [now left|]. now apply stripPrefix_spec.
      + destruct IH as [[q [Hq Heq]] | [Hsame Hnone]].
        * left. exists q. split; [now right | exact Heq].
        * right. split; [exact Hsame|]. intros q rest [<- | Hq] Heq.
          -- apply stripPrefix_spec in Heq. congruence.
          -- exact (Hnone q rest Hq Heq). }
  apply H.
Qed.

Example cleanBase64_gif :
  cleanBase64 "data:image/gif;base64,R0lGODlh" = "data:image/gif;base64,R0lGODlh"%string.
Proof. reflexivity. Qed.

(** ** The image of a response *)

(** X22. A response yields an image exactly when one of its parts has
    [inlineData]; the URL returned is made from the first such part, and
    the parts after it are not looked at.  Without such a part, or without
    parts at all, the call throws "No image generated in response". *)
Theorem imageOfResponse_first (parts : option (list Part)) :
  match imageOfResponse parts with
  | inr url =>
      exists before part after data,
        parts = Some (before ++ part :: after) /\
        Forall (fun q => part_inlineData q = None) before /\
        part_inlineData part = Some data /\
        url = imageDataUrl data /\
        cleanBase64 url = match data with Some d => d | None => "undefined"%string end
  | inl message =>
      message = "No image generated in response"%string /\
      match parts with
      | Some ps => Forall (fun q => part_inlineData q = None) ps
      | None => True
      end
  end.
Proof.
  destruct parts as [ps|]; [|cbn; tauto]. unfold imageOfResponse.
  assert (H : match firstImage ps with
              | Some url =>
                  exists before part after data,
                    ps = before ++ part :: after /\
                    Forall (fun q => part_inlineData q = None) before /\
                    part_inlineData part = Some data /\
                    url = imageDataUrl data
              | None => Forall (fun q => part_inlineData q = None) ps
              end).
  { induction ps as [|part rest IH]; [constructor|]. cbn [firstImage].
    destruct (part_inlineData part) as [data|] eqn:Hdata.
    - exists [], part, rest, data. repeat split; [constructor | exact Hdata].
    - destruct (firstImage rest) as [url|].
      + destruct IH as (before & q & after & data & -> & Hbefore & Hq & ->).
        exists (part :: before), q, after, data.
        repeat split; [constructor; assumption | exact Hq].
      + constructor; assumption. }
  destruct (firstImage ps) as [url|].
  - destruct H as (before & part & after & data & -> & Hbefore & Hpart & ->).
    exists before, part, after, data. repeat split; assumption.
  - split; [reflexivity | exact H].
Qed.

Example imageOfResponse_text_first :
  imageOfResponse
    (Some [mkPart (Some "Here is the sheet"%string) None;
           mkPart None (Some (Some "iVBORw0KGgo"%string));
           mkPart None (Some (Some "second"%string))])
  = inr "data:image/png;base64,iVBORw0KGgo"%string.
Proof. reflexivity. Qed.

(** ** The viewport *)

Lemma clamp_bounds (lo hi x : Q) :
  (lo <= hi)%Q -> (lo <= Qmin (Qmax lo x) hi <= hi)%Q.
Proof.
  intros Hle. split.
  - apply Q.min_glb; [apply Q.le_max_l | exact Hle].
  - apply Q.le_min_r.
Qed.

Lemma workspaceStep_scale (w : Workspace) (e : WorkspaceEvent) :
  (0.1 <= vp_scale (viewport w) <= 5)%Q ->
  (0.1 <= vp_scale (viewport (workspaceStep w e)) <= 5)%Q.
Proof.
  intros [Hlo Hhi]. destruct e; cbn [workspaceStep].
  - unfold handleWheel. destruct (ctrlKey || metaKey); cbn.
    + apply clamp_bounds. lra.
    + split; assumption.
  - unfold handleCanvasMouseDown. destruct (draggingId w); [split; assumption|].
    destruct ((button =? 0) || (button =? 1)); cbn; split; assumption.
  - cbn. split; assumption.
  - unfold handleGlobalMouseMove. cbn. destruct (isPanning w); cbn; split; assumption.
  - cbn. split; assumption.
  - cbn. split.
    + apply Q.min_glb; lra.
    + eapply Qle_trans; [apply Q.le_min_r|]. lra.
  - cbn. split.
    + apply Q.le_max_r.
    + apply Q.max_lub; lra.
  - cbn. lra.
  - unfold initNodesEffect. destruct (negb hasImage); [cbn; split; assumption|].
    destruct (nodes w); cbn; split; assumption.
  - unfold layoutEffect.
    destruct ((width dimensions =? 0) || Nat.eqb (length (nodes w)) 0);
      [split; assumption|].
    destruct (Qlt_bool MAX_SOURCE_HEIGHT (inject_Z (height dimensions)));
      cbn; split; assumption.
Qed.

(** X23. The zoom stays between 10% and 500%: whatever the wheel, the
    mouse, the zoom buttons and the effects do, from the initial workspace
    on, the scale of the viewport is within [0.1, 5]; it is never 0, which
    the node drag divides by. *)
Theorem viewport_scale_bounded (events : list WorkspaceEvent) :
  let w := fold_left workspaceStep events initialWorkspace in
  (0.1 <= vp_scale (viewport w) <= 5)%Q /\ ~ (vp_scale (viewport w) == 0)%Q.
Proof.
  cbv zeta.
  assert (H : forall w0, (0.1 <= vp_scale (viewport w0) <= 5)%Q ->
            (0.1 <= vp_scale (viewport (fold_left workspaceStep events w0)) <= 5)%Q).
  { induction events as [|e rest IH]; intros w0 H0; [exact H0|].
    cbn [fold_left]. apply IH. now apply workspaceStep_scale. }
  assert (Hb : (0.1 <= vp_scale (viewport (fold_left workspaceStep events initialWorkspace)) <= 5)%Q).
  { apply H. cbn. lra. }
  split; [exact Hb|]. intros H0. rewrite H0 in Hb. lra.
Qed.

(** The zoom buttons move the scale by 0.1 inside their own range
    only: [zoomIn] never leaves it above 3 and [zoomOut] never below 0.1,
    so that from a scale above 3, which the wheel can set, [zoomIn] brings
    the scale down to 3. *)
Lemma zoom_buttons (w : Workspace) :
  (vp_scale (viewport (zoomIn w)) <= 3)%Q /\
  (0.1 <= vp_scale (viewport (zoomOut w)))%Q /\
  (vp_scale (viewport w) + 0.1 <= 3 ->
   vp_scale (viewport (zoomIn w)) == vp_scale (viewport w) + 0.1)%Q /\
  (3 <= vp_scale (viewport w) ->
   vp_scale (viewport (zoomIn w)) == 3)%Q /\
  (0.1 <= vp_scale (viewport w) - 0.1 ->
   vp_scale (viewport (zoomOut w)) == vp_scale (viewport w) - 0.1)%Q /\
  vp_x (viewport (zoomIn w)) = vp_x (viewport w) /\
  vp_y (viewport (zoomIn w)) = vp_y (viewport w) /\
  nodes (zoomIn w) = nodes w /\ nodes (zoomOut w) = nodes w.
Proof.
  cbn. repeat split.
  - apply Q.le_min_r.
  - apply Q.le_max_r.
  - intros H. now apply Q.min_l.
  - intros H. apply Q.min_r. lra.
  - intros H. now apply Q.max_l.
Qed.

Lemma zoom_buttons_witness :
  (vp_scale (viewport (zoomIn (handleWheel true false 0 (-4000) initialWorkspace)))
   == 3)%Q.
Proof.
  apply (zoom_buttons (handleWheel true false 0 (-4000) initialWorkspace)).
  vm_compute. discriminate.
Defined.


(** ** Panning *)

Lemma pan_move (clientX clientY : Q) (w : Workspace) :
  isPanning w = true -> draggingId w = None ->
  handleGlobalMouseMove clientX clientY w =
  mkWorkspace (nodes w)
    (mkViewport (vp_scale (viewport w))
                (clientX - pos_x (panStart w)) (clientY - pos_y (panStart w)))
    true (panStart w) (isDraggingNode w) (nodeDragStart w) (initialNodePos w).
Proof.
  intros Hpan Hdrag. unfold handleGlobalMouseMove. now rewrite Hpan, Hdrag.
Qed.

(** X24. A pan is anchored where the button went down: after a press of the
    left or middle button at [(downX, downY)] outside a node drag and any
    mouse moves that end at [(toX, toY)], the viewport is offset by
    [(toX - downX, toY - downY)] from where it was, whatever the moves in
    between; the zoom and the nodes are untouched. *)
Theorem pan_follows_mouse (w : Workspace) (button : Z) (downX downY toX toY : Q)
    (between : list (Q * Q)) :
  draggingId w = None -> button = 0 \/ button = 1 ->
  let w' := mouseMoves (between ++ [(toX, toY)])
              (handleCanvasMouseDown button downX downY w) in
  (vp_x (viewport w') == vp_x (viewport w) + (toX - downX))%Q /\
  (vp_y (viewport w') == vp_y (viewport w) + (toY - downY))%Q /\
  vp_scale (viewport w') = vp_scale (viewport w) /\
  nodes w' = nodes w.
Proof.
  intros Hdrag Hbutton. cbv zeta.
  assert (Hdown : handleCanvasMouseDown button downX downY w =
            mkWorkspace (nodes w) (viewport w) true
              (mkPosition (downX - vp_x (viewport w)) (downY - vp_y (viewport w)))
              (isDraggingNode w) (nodeDragStart w) (initialNodePos w)).
  { unfold handleCanvasMouseDown. rewrite Hdrag.
    destruct Hbutton as [-> | ->]; reflexivity. }
  rewrite Hdown. clear Hdown.
  set (start := mkPosition (downX - vp_x (viewport w)) (downY - vp_y (viewport w))).
  assert (Hinv : forall moves w0,
            isPanning w0 = true -> draggingId w0 = None ->
            panStart w0 = start -> nodes w0 = nodes w ->
            vp_scale (viewport w0) = vp_scale (viewport w) ->
            let w1 := mouseMoves moves w0 in
            isPanning w1 = true /\ draggingId w1 = None /\
            panStart w1 = start /\ nodes w1 = nodes w /\
            vp_scale (viewport w1) = vp_scale (viewport w)).
  { induction moves as [|[mx my] rest IH]; intros w0 Hp Hd Hs Hn Hz; cbv zeta.
    - repeat split; assumption.
    - unfold mouseMoves. cbn [fold_left fst snd]. rewrite pan_move by assumption.
      apply IH; try assumption; reflexivity. }
  unfold mouseMoves. rewrite fold_left_app. cbn [fold_left fst snd].
  match goal with
  | |- context [handleGlobalMouseMove toX toY ?w0] =>
      destruct (Hinv between (mkWorkspace (nodes w) (viewport w) true start
                                (isDraggingNode w) (nodeDragStart w) (initialNodePos w)))
        as (Hp & Hd & Hs & Hn & Hz);
      [reflexivity | exact Hdrag | reflexivity | reflexivity | reflexivity |];
      unfold mouseMoves in Hp, Hd, Hs, Hn, Hz;
      rewrite (pan_move toX toY w0 Hp Hd)
  end.
  cbn [viewport vp_x vp_y vp_scale nodes]. rewrite Hs. cbn [start pos_x pos_y].
  repeat split; try assumption; ring.
Qed.

Lemma pan_follows_mouse_witness :
  (vp_x (viewport (mouseMoves ([(30, 40); (500, 2)] ++ [(210, 120)])
                     (handleCanvasMouseDown 0 200 100 initialWorkspace)))
   == vp_x (viewport initialWorkspace) + (210 - 200))%Q.
Proof.
  apply (pan_follows_mouse initialWorkspace 0 200 100 210 120 [(30, 40); (500, 2)]%Q);
    [reflexivity | now left].
Defined.

(** ** Dragging a node *)

Lemma draggedTo_twice (id : string) (anchor : Position) (scale : Q)
    (fromX fromY x1 y1 x2 y2 : Q) (n : CanvasNodeData) :
  draggedTo id anchor scale fromX fromY x2 y2
    (draggedTo id anchor scale fromX fromY x1 y1 n)
  = draggedTo id anchor scale fromX fromY x2 y2 n.
Proof.
  unfold draggedTo. destruct (String.eqb (node_id n) id) eqn:Hid.
  - cbn [moveNode node_id]. rewrite Hid. reflexivity.
  - now rewrite Hid.
Qed.

Lemma drag_move (clientX clientY : Q) (id : string) (w : Workspace) :
  isPanning w = false -> draggingId w = Some id ->
  handleGlobalMouseMove clientX clientY w =
  mkWorkspace
    (map (draggedTo id (initialNodePos w) (vp_scale (viewport w))
            (pos_x (nodeDragStart w)) (pos_y (nodeDragStart w)) clientX clientY)
         (nodes w))
    (viewport w) false (panStart w) (isDraggingNode w) (nodeDragStart w)
    (initialNodePos w).
Proof.
  intros Hpan Hdrag. unfold handleGlobalMouseMove. rewrite Hpan, Hdrag.
  destruct (viewport w); reflexivity.
Qed.

(** X25. A node drag is anchored where it started: after a press on the
    header of a node that exists, at [(downX, downY)], and any mouse moves
    that end at [(toX, toY)], the node is at its first position plus
    [(toX - downX, toY - downY)] divided by the zoom, whatever the moves in
    between; its identity and size, the other nodes and the viewport are as
    before. *)
Theorem node_drag_follows_mouse (w : Workspace) (nodeId : string)
    (node : CanvasNodeData) (downX downY toX toY : Q) (between : list (Q * Q)) :
  isPanning w = false -> nodeId <> ""%string ->
  findNode nodeId (nodes w) = Some node ->
  let w' := mouseMoves (between ++ [(toX, toY)])
              (handleNodeMouseDown downX downY nodeId w) in
  nodes w' =
    map (draggedTo nodeId (node_position node) (vp_scale (viewport w))
           downX downY toX toY) (nodes w) /\
  viewport w' = viewport w /\
  (forall n, In n (nodes w) -> node_id n <> nodeId -> In n (nodes w')) /\
  length (nodes w') = length (nodes w).
Proof.
  intros Hpan Hid Hfind. cbv zeta.
  set (anchor := node_position node).
  set (f := fun x y => draggedTo nodeId anchor (vp_scale (viewport w)) downX downY x y).
  assert (Hdragging : forall w0, isDraggingNode w0 = Some nodeId ->
                                 draggingId w0 = Some nodeId).
  { intros w0 H0. unfold draggingId. rewrite H0.
    destruct (String.eqb_spec nodeId ""); [contradiction | reflexivity]. }
  assert (Hinv : forall moves w0 x y,
            isPanning w0 = false -> isDraggingNode w0 = Some nodeId ->
            nodeDragStart w0 = mkPosition downX downY ->
            initialNodePos w0 = anchor -> viewport w0 = viewport w ->
            (nodes w0 = nodes w \/ nodes w0 = map (f x y) (nodes w)) ->
            let w1 := mouseMoves (moves ++ [(toX, toY)]) w0 in
            nodes w1 = map (f toX toY) (nodes w) /\ viewport w1 = viewport w).
  { induction moves as [|[mx my] rest IH]; intros w0 x y Hp Hd Hs Ha Hv Hn; cbv zeta.
    - unfold mouseMoves. cbn [app fold_left fst snd].
      rewrite (drag_move toX toY nodeId w0 Hp (Hdragging w0 Hd)).
      cbn [nodes viewport]. rewrite Hs, Ha, Hv. cbn [pos_x pos_y].
      split; [|reflexivity]. destruct Hn as [-> | ->]; [reflexivity|].
      rewrite map_map. apply map_ext. intros n. apply draggedTo_twice.
    - unfold mouseMoves. cbn [app fold_left fst snd].
      rewrite (drag_move mx my nodeId w0 Hp (Hdragging w0 Hd)).
      apply (IH _ mx my); try assumption; try reflexivity.
      right. cbn [nodes]. rewrite Hs, Ha, Hv. cbn [pos_x pos_y].
      destruct Hn as [-> | ->]; [reflexivity|].
      rewrite map_map. apply map_ext. intros n. apply draggedTo_twice. }
  destruct (Hinv between (handleNodeMouseDown downX downY nodeId w) 0%Q 0%Q)
    as [Hnodes Hview].
  - exact Hpan.
  - reflexivity.
  - reflexivity.
  - cbn [handleNodeMouseDown initialNodePos]. rewrite Hfind.
    unfold anchor. now destruct (node_position node).
  - reflexivity.
  - now left.
  - split; [exact Hnodes|]. split; [exact Hview|]. split.
    + intros n Hn Hother. rewrite Hnodes. apply in_map_iff. exists n.
      split; [|exact Hn]. unfold f, draggedTo.
      destruct (String.eqb_spec (node_id n) nodeId); [contradiction | reflexivity].
    + rewrite Hnodes. apply length_map.
Qed.

Lemma node_drag_follows_mouse_witness :
  length (nodes (mouseMoves ([(10, 10)] ++ [(260, 180)])%Q
                   (handleNodeMouseDown 250 150 "preview"
                      (initNodesEffect true initialWorkspace))))
  = length (nodes (initNodesEffect true initialWorkspace)).
Proof.
  apply (node_drag_follows_mouse (initNodesEffect true initialWorkspace) "preview"
           (mkNode "preview" PreviewNode "Animation" (mkPosition 400 0)
                   (Some 420%Q) (Some 460%Q))
           250 150 260 180 [(10, 10)]%Q);
    [reflexivity | discriminate | reflexivity].
Defined.

Example node_drag_at_zoom :
  map node_position
    (nodes (mouseMoves [(10, 10); (258, 166)]%Q
              (handleNodeMouseDown 250 150 "preview"
                 (initNodesEffect true initialWorkspace))))
  = [mkPosition 0 0;
     mkPosition (400 + (258 - 250) / 0.8) (0 + (166 - 150) / 0.8)].
Proof. reflexivity. Qed.

(** ** The layout of the two nodes *)

(** The size the image is displayed at: its own, or scaled down to the
    height of 600 with the same proportions. *)
Lemma display_size (dimensions : ImageDimensions) :
  0 <= height dimensions ->
  let displayHeight := inject_Z (height dimensions) in
  let size :=
    if Qlt_bool MAX_SOURCE_HEIGHT displayHeight then
      ((inject_Z (width dimensions) * (MAX_SOURCE_HEIGHT / displayHeight))%Q,
       MAX_SOURCE_HEIGHT)
    else (inject_Z (width dimensions), displayHeight) in
  (0 <= snd size <= 600)%Q /\
  (snd size == Qmin (inject_Z (height dimensions)) 600)%Q /\
  (fst size * inject_Z (height dimensions) == inject_Z (width dimensions) * snd size)%Q.
Proof.
  intros Hh. cbv zeta. unfold MAX_SOURCE_HEIGHT.
  assert (Hh0 : (0 <= inject_Z (height dimensions))%Q)
    by (change 0%Q with (inject_Z 0); rewrite <- Zle_Qle; exact Hh).
  destruct (Qlt_bool 600 (inject_Z (height dimensions))) eqn:Hlt; cbn [fst snd].
  - apply Qlt_bool_iff in Hlt. split; [lra|]. split.
    + symmetry. apply Q.min_r. lra.
    + field. lra.
  - assert (Hle : (inject_Z (height dimensions) <= 600)%Q).
    { apply Qnot_lt_le. intros H. apply Qlt_bool_iff in H. congruence. }
    split; [lra|]. split; [symmetry; now apply Q.min_l | ring].
Qed.

Lemma layout_nodes (dimensions : ImageDimensions) (w : Workspace) :
  width dimensions <> 0 -> 0 <= height dimensions -> nodes w <> [] ->
  let sourcePos :=
    match findNode "source" (nodes w) with
    | Some sourceNode => node_position sourceNode
    | None => mkPosition 0 0
    end in
  exists displayWidth displayHeight sourceWidth sourceHeight,
    nodes (layoutEffect dimensions w) =
      [mkNode "source" SourceNode "Sprite Sheet" sourcePos
              (Some sourceWidth) (Some sourceHeight);
       mkNode "preview" PreviewNode "Animation"
              (mkPosition (pos_x sourcePos + sourceWidth + 150) (pos_y sourcePos))
              (Some 420%Q) (Some (400 + 40 + 16)%Q)] /\
    viewport (layoutEffect dimensions w) = viewport w /\
    (displayHeight == Qmin (inject_Z (height dimensions)) 600)%Q /\
    (displayWidth * inject_Z (height dimensions)
     == inject_Z (width dimensions) * displayHeight)%Q /\
    (sourceHeight == displayHeight + 56)%Q /\
    (300 <= sourceWidth)%Q /\ (displayWidth + 16 <= sourceWidth)%Q /\
    (56 <= sourceHeight <= 656)%Q.
Proof.
  intros Hw Hh Hnodes. cbv zeta. unfold layoutEffect.
  destruct (Z.eqb_spec (width dimensions) 0) as [|_]; [contradiction|].
  destruct (nodes w) as [|n0 rest] eqn:Hns; [contradiction|].
  cbn [length Nat.eqb orb].
  pose proof (display_size dimensions Hh) as Hsize. cbv zeta in Hsize.
  destruct (if Qlt_bool MAX_SOURCE_HEIGHT (inject_Z (height dimensions))
            then ((inject_Z (width dimensions)
                   * (MAX_SOURCE_HEIGHT / inject_Z (height dimensions)))%Q,
                  MAX_SOURCE_HEIGHT)
            else (inject_Z (width dimensions), inject_Z (height dimensions)))
    as [displayWidth displayHeight].
  cbn [fst snd] in Hsize. destruct Hsize as (Hrange & Hmin & Hprop).
  exists displayWidth, displayHeight. do 2 eexists.
  split; [reflexivity|]. split; [reflexivity|].
  split; [exact Hmin|]. split; [exact Hprop|].
  split; [ring|]. split; [apply Q.le_max_l|]. split; [apply Q.le_max_r|]. lra.
Qed.

(** X26. When the dimensions of an image arrive on a canvas that has nodes,
    the layout leaves exactly the source node and the preview node.  The
    source node stays where it was and holds the image at the size it is
    displayed at, at most 600 high and with the proportions of the image,
    with a width of at least 300; the preview node, 420 by 456, is put 150
    to the right of the source node with its top at the same height, so the
    two never overlap.  The viewport is untouched. *)
Theorem layout_places_nodes (dimensions : ImageDimensions) (w : Workspace) :
  width dimensions <> 0 -> 0 <= height dimensions -> nodes w <> [] ->
  let sourcePos :=
    match findNode "source" (nodes w) with
    | Some sourceNode => node_position sourceNode
    | None => mkPosition 0 0
    end in
  exists displayWidth displayHeight sourceWidth sourceHeight,
    nodes (layoutEffect dimensions w) =
      [mkNode "source" SourceNode "Sprite Sheet" sourcePos
              (Some sourceWidth) (Some sourceHeight);
       mkNode "preview" PreviewNode "Animation"
              (mkPosition (pos_x sourcePos + sourceWidth + 150) (pos_y sourcePos))
              (Some 420%Q) (Some (400 + 40 + 16)%Q)] /\
    viewport (layoutEffect dimensions w) = viewport w /\
    (displayHeight == Qmin (inject_Z (height dimensions)) 600)%Q /\
    (displayWidth * inject_Z (height dimensions)
     == inject_Z (width dimensions) * displayHeight)%Q /\
    (sourceHeight == displayHeight + 56)%Q /\
    (300 <= sourceWidth)%Q /\ (displayWidth + 16 <= sourceWidth)%Q /\
    (56 <= sourceHeight <= 656)%Q.
Proof.
  intros Hw Hh Hnodes. now apply layout_nodes.
Qed.

Lemma layout_places_nodes_witness :
  viewport (layoutEffect (mkDims 512 1024) (initNodesEffect true initialWorkspace))
  = viewport (initNodesEffect true initialWorkspace).
Proof.
  destruct (layout_places_nodes (mkDims 512 1024)
              (initNodesEffect true initialWorkspace))
    as (dw & dh & sw & sh & _ & Hview & _);
    [simpl; lia | simpl; lia | discriminate |].
  exact Hview.
Defined.

Example layout_tall_image :
  map (fun n => (node_id n, node_position n, node_width n, node_height n))
      (nodes (layoutEffect (mkDims 512 1024) (initNodesEffect true initialWorkspace)))
  = [("source"%string, mkPosition 0 0,
      Some (Qmax 300 (inject_Z 512 * (600 / inject_Z 1024) + 16)),
      Some (600 + 40 + 16)%Q);
     ("preview"%string,
      mkPosition (0 + Qmax 300 (inject_Z 512 * (600 / inject_Z 1024) + 16) + 150) 0,
      Some 420%Q, Some (400 + 40 + 16)%Q)].
Proof. reflexivity. Qed.

(** X27. Running the layout again on the same dimensions changes nothing;
    and, for an image with a width, the layout depends on the nodes it
    finds through the position of the source node only: it keeps a drag of
    the source node, and puts a dragged preview node back beside it. *)
Theorem layout_stable (dimensions : ImageDimensions) (w : Workspace)
    (ns : list CanvasNodeData) (source source' : CanvasNodeData) :
  layoutEffect dimensions (layoutEffect dimensions w) = layoutEffect dimensions w /\
  (width dimensions <> 0 ->
   findNode "source" (nodes w) = Some source ->
   findNode "source" ns = Some source' ->
   node_position source' = node_position source ->
   nodes (layoutEffect dimensions (setNodes w ns)) = nodes (layoutEffect dimensions w)).
Proof.
  split.
  - unfold layoutEffect at 2 3.
    destruct ((width dimensions =? 0) || Nat.eqb (length (nodes w)) 0) eqn:Hguard.
    + unfold layoutEffect. now rewrite Hguard.
    + apply orb_false_iff in Hguard. destruct Hguard as [Hwidth _].
      unfold layoutEffect. rewrite Hwidth.
      destruct (Qlt_bool MAX_SOURCE_HEIGHT (inject_Z (height dimensions)));
        reflexivity.
  - intros Hwidth Hsource Hns Hpos. unfold layoutEffect. cbn [setNodes nodes].
    assert (Hw : nodes w <> []) by (intros E; rewrite E in Hsource; discriminate).
    assert (Hn : ns <> []) by (intros E; rewrite E in Hns; discriminate).
    destruct (Z.eqb_spec (width dimensions) 0) as [|_]; [contradiction|].
    destruct (nodes w) as [|a l]; [contradiction|].
    destruct ns as [|b m]; [contradiction|].
    rewrite Hsource, Hns, Hpos. reflexivity.
Qed.

Lemma layout_stable_witness :
  nodes (layoutEffect (mkDims 512 1024)
           (setNodes (initNodesEffect true initialWorkspace)
              [mkNode "preview" PreviewNode "Animation" (mkPosition 5 900)
                      (Some 420%Q) (Some 460%Q);
               mkNode "source" SourceNode "Sprite Sheet" (mkPosition 0 0)
                      (Some 300%Q) (Some 300%Q)]))
  = nodes (layoutEffect (mkDims 512 1024) (initNodesEffect true initialWorkspace)).
Proof.
  apply (layout_stable (mkDims 512 1024) (initNodesEffect true initialWorkspace)
           [mkNode "preview" PreviewNode "Animation" (mkPosition 5 900)
                   (Some 420%Q) (Some 460%Q);
            mkNode "source" SourceNode "Sprite Sheet" (mkPosition 0 0)
                   (Some 300%Q) (Some 300%Q)]
           (mkNode "source" SourceNode "Sprite Sheet" (mkPosition 0 0)
                   (Some 300%Q) (Some 300%Q))
           (mkNode "source" SourceNode "Sprite Sheet" (mkPosition 0 0)
                   (Some 300%Q) (Some 300%Q)));
    [simpl; lia | reflexivity | reflexivity | reflexivity].
Defined.

(** ** The connection line *)

Lemma truthyNumber_pos (q : Q) : (0 < q)%Q -> truthyNumber q = true.
Proof.
  intros Hq. unfold truthyNumber. apply negb_true_iff.
  destruct (Qeq_bool q 0) eqn:Heq; [|reflexivity].
  apply Qeq_bool_eq in Heq. rewrite Heq in Hq. exfalso. exact (Qlt_irrefl 0 Hq).
Qed.

(** X29. After the layout of an image with a width and a non-negative
    height, the connection is drawn: from the middle of the right edge of
    the source node to the middle of the left edge of the preview node, 150
    further right. *)
Theorem connection_after_layout (dimensions : ImageDimensions) (w : Workspace) :
  width dimensions <> 0 -> 0 <= height dimensions -> nodes w <> [] ->
  exists source preview sourceWidth sourceHeight start finish,
    nodes (layoutEffect dimensions w) = [source; preview] /\
    node_width source = Some sourceWidth /\
    node_height source = Some sourceHeight /\
    renderConnections (layoutEffect dimensions w) = Some (start, finish) /\
    (pos_x start == pos_x (node_position source) + sourceWidth)%Q /\
    (pos_y start == pos_y (node_position source) + sourceHeight / 2)%Q /\
    (pos_x finish == pos_x start + 150)%Q /\
    (pos_y finish == pos_y (node_position preview) + 228)%Q.
Proof.
  intros Hw Hh Hnodes.
  destruct (layout_nodes dimensions w Hw Hh Hnodes)
    as (dw & dh & sw & sh & Hlayout & _ & _ & _ & _ & Hsw & _ & Hsh).
  cbv zeta in Hlayout.
  do 6 eexists. split; [exact Hlayout|].
  split; [reflexivity|]. split; [reflexivity|].
  unfold renderConnections. rewrite Hlayout.
  cbn [length Nat.ltb Nat.leb findNode find node_id String.eqb Ascii.eqb
       Bool.eqb node_width node_height node_position pos_x pos_y].
  rewrite (truthyNumber_pos sw) by lra.
  rewrite (truthyNumber_pos sh) by lra.
  rewrite truthyNumber_pos by reflexivity.
  cbn [andb]. split; [reflexivity|].
  cbn [pos_x pos_y fst snd]. repeat split; try reflexivity; field.
Qed.

Lemma connection_after_layout_witness :
  exists start finish,
    renderConnections
      (layoutEffect (mkDims 256 256) (initNodesEffect true initialWorkspace))
    = Some (start, finish) /\ (pos_x finish == pos_x start + 150)%Q.
Proof.
  destruct (connection_after_layout (mkDims 256 256)
              (initNodesEffect true initialWorkspace))
    as (source & preview & sw & sh & start & finish & _ & _ & _ & Hline & _ & _ & Hx & _);
    [simpl; lia | simpl; lia | discriminate |].
  exists start, finish. split; [exact Hline | exact Hx].
Defined.

(** Before the nodes are there, or when a node has no size, no line. *)
Example no_connection_without_nodes :
  renderConnections initialWorkspace = None.
Proof. reflexivity. Qed.

(** ** What the export submits *)

(** The floor of a quotient of integers scaled by an integer. *)
Lemma floor_scaled_quotient (a b c : Z) :
  0 < b -> Qfloor (inject_Z a / inject_Z b * inject_Z c) = a * c / b.
Proof.
  intros Hb.
  assert (Heq : (inject_Z a / inject_Z b * inject_Z c == (a * c) # (Z.to_pos b))%Q).
  { unfold Qeq, Qdiv, Qmult, Qinv, inject_Z. cbn [Qnum Qden].
    destruct b as [|b|b]; try lia. cbn. lia. }
  rewrite Heq. unfold Qfloor. f_equal. lia.
Qed.

Lemma to_canvas_size_nonneg (a b c : Z) :
  0 <= a -> 0 < b -> 0 <= c ->
  JS.to_canvas_size (inject_Z a / inject_Z b * inject_Z c) = a * c / b.
Proof.
  intros Ha Hb Hc. unfold JS.to_canvas_size.
  assert (Hpos : (0 <= inject_Z a / inject_Z b * inject_Z c)%Q).
  { apply Qmult_le_0_compat.
    - apply Qle_shift_div_l; [apply inject_Z_pos; lia|].
      rewrite Qmult_0_l. change 0%Q with (inject_Z 0). rewrite <- Zle_Qle. lia.
    - change 0%Q with (inject_Z 0). rewrite <- Zle_Qle. lia. }
  apply Qle_bool_iff in Hpos. rewrite Hpos. now apply floor_scaled_quotient.
Qed.

(** When the divisor divides, the canvas holds the size it was given. *)
Lemma to_canvas_size_exact (a b c : Z) :
  0 <= a -> 0 < b -> 0 <= c -> (b | a) ->
  (inject_Z (JS.to_canvas_size (inject_Z a / inject_Z b * inject_Z c))
   == inject_Z a / inject_Z b * inject_Z c)%Q.
Proof.
  intros Ha Hb Hc [k Hk]. rewrite to_canvas_size_nonneg by assumption. subst a.
  replace (k * b * c / b) with (k * c) by (rewrite <- Z.mul_assoc, (Z.mul_comm b c), Z.mul_assoc, Z.div_mul; lia).
  rewrite !inject_Z_mult. field. apply inject_Z_nonzero. lia.
Qed.









(** The frames submitted are taken from the canvas at the size it holds. *)
Lemma submitted_canvas_size (ctx : bool) (config : SpriteConfig)
    (dimensions : ImageDimensions) :
  Forall (fun f =>
            canvas_width (frame_canvas f) = canvasWidthOf config dimensions /\
            canvas_height (frame_canvas f) = canvasHeightOf config dimensions /\
            frame_delay f = delayOf config)
         (submittedFrames (generateGif ctx config dimensions)).
Proof.
  destruct ctx; [|constructor]. cbn [generateGif negb submittedFrames gif_frames].
  apply export_loop_frames with
    (w := canvasWidthOf config dimensions) (h := canvasHeightOf config dimensions);
    [|reflexivity|reflexivity|constructor].
  intros f Hw Hh Hd. repeat split; assumption.
Qed.

(** C7, as the code has it. On a grid with [rows, cols >= 1], an image of
    non-negative size and a scale of 1, 2 or 4, every frame the export adds
    is taken from a canvas whose pixel size is the integer part of
    [(naturalWidth / cols * scale, naturalHeight / rows * scale)], that is
    [naturalWidth * scale / cols] by [naturalHeight * scale / rows] rounded
    down; it is [frameWidth * scale] by [frameHeight * scale] itself when
    [cols] divides the width and [rows] the height.  For a 400 x 400 source,
    a 2 x 2 grid, 4 frames, 10 fps, scale 2 and the row direction, 4 frames
    are added, each 400 x 400 (a 200 x 200 source cell at scale 2) with a
    delay of 100 ms, drawn from the cells (0,0), (0,1), (1,0), (1,1) in that
    order. *)
Theorem export_frame_size (ctx : bool) (config : SpriteConfig)
    (dimensions : ImageDimensions) :
  1 <= rows config -> 1 <= cols config ->
  0 <= width dimensions -> 0 <= height dimensions ->
  scale config = 1 \/ scale config = 2 \/ scale config = 4 ->
  Forall (fun f =>
            canvas_width (frame_canvas f) =
              Qfloor (inject_Z (width dimensions) / inject_Z (cols config)
                      * inject_Z (scale config)) /\
            canvas_height (frame_canvas f) =
              Qfloor (inject_Z (height dimensions) / inject_Z (rows config)
                      * inject_Z (scale config)) /\
            canvas_width (frame_canvas f) =
              width dimensions * scale config / cols config /\
            canvas_height (frame_canvas f) =
              height dimensions * scale config / rows config /\
            ((cols config | width dimensions) ->
             (inject_Z (canvas_width (frame_canvas f)) ==
              inject_Z (width dimensions) / inject_Z (cols config)
              * inject_Z (scale config))%Q) /\
            ((rows config | height dimensions) ->
             (inject_Z (canvas_height (frame_canvas f)) ==
              inject_Z (height dimensions) / inject_Z (rows config)
              * inject_Z (scale config))%Q))
         (submittedFrames (generateGif ctx config dimensions))
  /\
  (forall auto : bool,
     let frames :=
       submittedFrames
         (generateGif true (mkConfig 2 2 4 10 2 None auto DirRow) (mkDims 400 400)) in
     length frames = 4%nat /\
     Forall (fun f =>
               canvas_width (frame_canvas f) = 400 /\
               canvas_height (frame_canvas f) = 400 /\
               (frame_delay f == 100)%Q) frames /\
     map (fun f => reducedSlice (bitmap (frame_canvas f))) frames =
       [Some (0, 0, 200, 200); Some (200, 0, 200, 200);
        Some (0, 200, 200, 200); Some (200, 200, 200, 200)]%Q).
Proof.
  intros Hr Hc Hw Hh Hscale. split.
  - assert (Hs : 0 <= scale config) by lia.
    eapply Forall_impl; [|apply submitted_canvas_size].
    intros f (Hfw & Hfh & _). rewrite Hfw, Hfh.
    unfold canvasWidthOf, canvasHeightOf, frameWidthOf, frameHeightOf.
    rewrite !to_canvas_size_nonneg by lia.
    rewrite !floor_scaled_quotient by lia.
    repeat split.
    + intros Hdiv.
      rewrite <- (to_canvas_size_nonneg (width dimensions)) by lia.
      apply to_canvas_size_exact; try lia. exact Hdiv.
    + intros Hdiv.
      rewrite <- (to_canvas_size_nonneg (height dimensions)) by lia.
      apply to_canvas_size_exact; try lia. exact Hdiv.
  - intros auto. cbv zeta.
    split; [destruct auto; reflexivity|]. split.
    + eapply Forall_impl; [|apply submitted_canvas_size].
      intros f (Hfw & Hfh & Hd). rewrite Hfw, Hfh, Hd.
      repeat split; vm_compute; reflexivity.
    + destruct auto; vm_compute; reflexivity.
Qed.

Lemma export_frame_size_witness :
  Forall (fun f =>
            canvas_width (frame_canvas f) = 100 * 1 / 3 /\
            canvas_height (frame_canvas f) = 50 * 1 / 1)
         (submittedFrames
            (generateGif true (mkConfig 1 3 3 10 1 None false DirRow) (mkDims 100 50))).
Proof.
  destruct (export_frame_size true (mkConfig 1 3 3 10 1 None false DirRow)
              (mkDims 100 50)) as [Hall _];
    [simpl; lia | simpl; lia | simpl; lia | simpl; lia | simpl; lia |].
  eapply Forall_impl; [|exact Hall].
  intros f (_ & _ & Hfw & Hfh & _). split; [exact Hfw | exact Hfh].
Defined.

(** C7, as stated, fails twice.  In its example a 400 x 400 source cut
    2 x 2 has cells of 200 x 200, and at scale 2 the frames are 400 x 400,
    not 200 x 200.  And a 100 x 50 source cut into 3 columns gives frames
    33 pixels wide, not the 100 / 3 of [frameWidth * scale]. *)
Lemma export_size_not_as_claimed :
  ~ Forall (fun f =>
              canvas_width (frame_canvas f) = 200 /\
              canvas_height (frame_canvas f) = 200)
      (submittedFrames
         (generateGif true (mkConfig 2 2 4 10 2 None false DirRow) (mkDims 400 400)))
  /\
  ~ Forall (fun f =>
              (inject_Z (canvas_width (frame_canvas f)) ==
               inject_Z 100 / inject_Z 3 * inject_Z 1)%Q)
      (submittedFrames
         (generateGif true (mkConfig 1 3 3 10 1 None false DirRow) (mkDims 100 50))).
Proof.
  split; intros H.
  - assert (Hhead : exists f rest,
      submittedFrames
        (generateGif true (mkConfig 2 2 4 10 2 None false DirRow) (mkDims 400 400))
        = f :: rest /\ canvas_width (frame_canvas f) = 400).
    { eexists. eexists. split; vm_compute; reflexivity. }
    destruct Hhead as (f & rest & Heq & Hw). rewrite Heq in H.
    apply Forall_inv in H. destruct H as [H _]. rewrite Hw in H. lia.
  - assert (Hhead : exists f rest,
      submittedFrames
        (generateGif true (mkConfig 1 3 3 10 1 None false DirRow) (mkDims 100 50))
        = f :: rest /\ canvas_width (frame_canvas f) = 33).
    { eexists. eexists. split; vm_compute; reflexivity. }
    destruct Hhead as (f & rest & Heq & Hw). rewrite Heq in H.
    apply Forall_inv in H. rewrite Hw in H. vm_compute in H. lia.
Qed.

(** The frames of that sheet: 33 x 50 each, the third column's last pixel
    column never drawn. *)
Example export_truncated_size :
  map (fun f => (canvas_width (frame_canvas f), canvas_height (frame_canvas f)))
      (submittedFrames
         (generateGif true (mkConfig 1 3 3 10 1 None false DirRow) (mkDims 100 50)))
  = [(33, 50); (33, 50); (33, 50)].
Proof. reflexivity. Qed.

(** The size handed to the encoder as [gifOptions.width] and
    [gifOptions.height] is the size as computed, fractional or not. *)
Lemma export_options_size (config : SpriteConfig) (dimensions : ImageDimensions) :
  forall gif, generateGif true config dimensions = inr gif ->
  opt_width (gif_options gif) =
    (inject_Z (width dimensions) / inject_Z (cols config)
     * inject_Z (scale config))%Q /\
  opt_height (gif_options gif) =
    (inject_Z (height dimensions) / inject_Z (rows config)
     * inject_Z (scale config))%Q /\
  opt_transparent (gif_options gif) =
    (if autoTransparent config then Some 0xff00ff else None).
Proof.
  intros gif H. cbn in H. injection H as <-. repeat split.
Qed.

(** Beyond the grid the safety check drops the surplus: with
    [totalFrames = 6] on a 2 x 2 grid four frames are added. *)
Example export_surplus_skipped :
  map (fun f => reducedSlice (bitmap (frame_canvas f)))
    (submittedFrames
       (generateGif true (mkConfig 2 2 6 10 1 None false DirRow) (mkDims 64 64)))
  = [Some (0, 0, 32, 32); Some (32, 0, 32, 32);
     Some (0, 32, 32, 32); Some (32, 32, 32, 32)]%Q.
Proof. reflexivity. Qed.

(** ** The safety check of the export loop *)



(** ** The exporter and the overlay agree *)

Lemma bitmapOfCell_slice (auto : bool) (fw fh : Q) (cell : Z * Z) :
  sliceOf (bitmapOfCell auto fw fh cell) =
  Some ((inject_Z (snd cell) * fw)%Q, (inject_Z (fst cell) * fh)%Q, fw, fh).
Proof. unfold bitmapOfCell. destruct auto; reflexivity. Qed.




(** ** The source rectangle of a frame *)

(** The start of a cell of [n] equal parts of a length [total] lies
    inside it. *)
Lemma slice_start_within (total n k : Z) :
  1 <= total -> 1 <= n -> 0 <= k < n ->
  (0 <= inject_Z k * (inject_Z total / inject_Z n) /\
   inject_Z k * (inject_Z total / inject_Z n) < inject_Z total)%Q.
Proof.
  intros Ht Hn Hk.
  assert (Hn0 : ~ (inject_Z n == 0)%Q) by (apply inject_Z_nonzero; lia).
  assert (Hpart : (0 < inject_Z total / inject_Z n)%Q).
  { apply Qlt_shift_div_l; [apply inject_Z_pos; lia|].
    rewrite Qmult_0_l. apply inject_Z_pos. lia. }
  assert (Hk0 : (0 <= inject_Z k)%Q)
    by (change 0%Q with (inject_Z 0); rewrite <- Zle_Qle; lia).
  split.
  - apply Qmult_le_0_compat; [assumption | now apply Qlt_le_weak].
  - assert (Hwhole : (inject_Z n * (inject_Z total / inject_Z n) == inject_Z total)%Q)
      by (field; exact Hn0).
    rewrite <- Hwhole at 2.
    apply Qmult_lt_compat_r; [exact Hpart|]. rewrite <- Zlt_Qlt. lia.
Qed.

(** When [n] divides [total], the cell ends inside it too. *)
Lemma slice_end_within (total n k : Z) :
  0 <= total -> 1 <= n -> 0 <= k < n ->
  (inject_Z k * (inject_Z total / inject_Z n) + inject_Z total / inject_Z n
     <= inject_Z total)%Q.
Proof.
  intros Ht Hn Hk.
  assert (Hn0 : ~ (inject_Z n == 0)%Q) by (apply inject_Z_nonzero; lia).
  assert (Hpart : (0 <= inject_Z total / inject_Z n)%Q).
  { apply Qle_shift_div_l; [apply inject_Z_pos; lia|].
    rewrite Qmult_0_l. change 0%Q with (inject_Z 0). rewrite <- Zle_Qle. lia. }
  assert (Hwhole : (inject_Z n * (inject_Z total / inject_Z n) == inject_Z total)%Q)
    by (field; exact Hn0).
  rewrite <- Hwhole at 3.
  assert (Hk1 : (inject_Z k + 1 <= inject_Z n)%Q).
  { change 1%Q with (inject_Z 1). rewrite <- inject_Z_plus, <- Zle_Qle. lia. }
  setoid_replace (inject_Z k * (inject_Z total / inject_Z n)
                  + inject_Z total / inject_Z n)%Q
    with ((inject_Z k + 1) * (inject_Z total / inject_Z n))%Q by ring.
  apply Qmult_le_compat_r; assumption.
Qed.

(** X4. On a grid with [rows, cols >= 1] and an image of at least one
    pixel, every frame the export adds, for any [totalFrames], is drawn
    from the source rectangle [(col * frameWidth, row * frameHeight,
    frameWidth, frameHeight)] of a cell [(row, col)] of the grid; the
    rectangle starts inside the image, and it ends inside it when [cols]
    divides the width and [rows] the height. *)
Theorem export_reads_inside_image (config : SpriteConfig) (dimensions : ImageDimensions) :
  1 <= rows config -> 1 <= cols config ->
  1 <= width dimensions -> 1 <= height dimensions ->
  Forall (fun f =>
            exists row col,
              0 <= row < rows config /\ 0 <= col < cols config /\
              let frameWidth :=
                (inject_Z (width dimensions) / inject_Z (cols config))%Q in
              let frameHeight :=
                (inject_Z (height dimensions) / inject_Z (rows config))%Q in
              let sx := (inject_Z col * frameWidth)%Q in
              let sy := (inject_Z row * frameHeight)%Q in
              sliceOf (bitmap (frame_canvas f)) =
                Some (sx, sy, frameWidth, frameHeight) /\
              (0 <= sx /\ sx < inject_Z (width dimensions))%Q /\
              (0 <= sy /\ sy < inject_Z (height dimensions))%Q /\
              ((cols config | width dimensions) ->
               (sx + frameWidth <= inject_Z (width dimensions))%Q) /\
              ((rows config | height dimensions) ->
               (sy + frameHeight <= inject_Z (height dimensions))%Q))
         (submittedFrames (generateGif true config dimensions)).
Proof.
  intros Hr Hc Hw Hh.
  destruct (generateGif_frames_general config dimensions Hr Hc) as [gif [Hgif Hframes]].
  rewrite Hgif. cbn [submittedFrames]. rewrite Hframes.
  apply Forall_map, Forall_forall. intros i Hi. apply range_In in Hi.
  assert (Hgrid : 0 <= i < rows config * cols config) by lia.
  destruct (cellOfIndex_in_grid config i Hr Hc Hgrid) as [Hrow Hcol].
  exists (fst (cellOfIndex config i)), (snd (cellOfIndex config i)).
  split; [exact Hrow|]. split; [exact Hcol|]. cbv zeta.
  split.
  { rewrite (proj2 (proj2 (proj2 (frameAt_fields config _ _ _ _ _ i)))).
    apply bitmapOfCell_slice. }
  split; [apply slice_start_within; assumption|].
  split; [apply slice_start_within; assumption|].
  split; intros _; apply slice_end_within; assumption || lia.
Qed.

Lemma export_reads_inside_image_witness :
  Forall (fun f =>
            exists row col,
              0 <= row < 2 /\ 0 <= col < 3 /\
              sliceOf (bitmap (frame_canvas f)) =
                Some ((inject_Z col * (inject_Z 100 / inject_Z 3))%Q,
                      (inject_Z row * (inject_Z 64 / inject_Z 2))%Q,
                      (inject_Z 100 / inject_Z 3)%Q, (inject_Z 64 / inject_Z 2)%Q) /\
              (0 <= inject_Z col * (inject_Z 100 / inject_Z 3) /\
               inject_Z col * (inject_Z 100 / inject_Z 3) < inject_Z 100)%Q)
         (submittedFrames
            (generateGif true (mkConfig 2 3 9 12 1 None true DirRow) (mkDims 100 64))).
Proof.
  eapply Forall_impl;
    [| apply (export_reads_inside_image (mkConfig 2 3 9 12 1 None true DirRow)
                (mkDims 100 64)); simpl; lia].
  intros f (row & col & Hrow & Hcol & Hslice & Hx & _).
  exists row, col. split; [exact Hrow|]. split; [exact Hcol|].
  split; [exact Hslice | exact Hx].
Defined.

(** ** The preview and the export *)

(** The floor of a quotient of integers. *)
Lemma floor_quotient (a b : Z) :
  0 < b -> Qfloor (inject_Z a / inject_Z b) = a / b.
Proof.
  intros Hb.
  assert (Heq : (inject_Z a / inject_Z b == a # (Z.to_pos b))%Q).
  { unfold Qeq, Qdiv, Qmult, Qinv, inject_Z. cbn [Qnum Qden].
    destruct b as [|b|b]; try lia. cbn. lia. }
  rewrite Heq. unfold Qfloor. f_equal. lia.
Qed.

(** X6. When [fps >= 1] divides 1000, so that the frame interval
    [1000 / fps] is a whole number of milliseconds, and with
    [totalFrames >= 1], the preview shows at a timestamp of [t] whole
    milliseconds the frame [floor(t / (1000 / fps)) mod totalFrames]: each
    frame stays for the delay the export gives its frames, and the
    animation repeats after [totalFrames] intervals. *)
Theorem preview_frame_schedule (config : SpriteConfig) (t : Z) :
  1 <= fps config -> 1000 mod fps config = 0 ->
  1 <= totalFrames config -> 0 <= t ->
  frameIndexAt config (inject_Z t) = (t / (1000 / fps config)) mod totalFrames config /\
  (delayOf config == inject_Z (1000 / fps config))%Q /\
  frameIndexAt config (inject_Z (t + totalFrames config * (1000 / fps config)))
    = frameIndexAt config (inject_Z t).
Proof.
  intros Hf Hdiv Ht Htime.
  assert (Hexact : 1000 = fps config * (1000 / fps config))
    by (apply Z.div_exact in Hdiv; lia).
  set (interval := 1000 / fps config) in *.
  assert (Hinterval : 1 <= interval) by nia.
  assert (Hq : (inject_Z 1000 / inject_Z (fps config) == inject_Z interval)%Q).
  { rewrite Hexact at 1. rewrite inject_Z_mult. field. apply inject_Z_nonzero. lia. }
  assert (Hat : forall u, 0 <= u ->
            frameIndexAt config (inject_Z u) = (u / interval) mod totalFrames config).
  { intros u Hu. unfold frameIndexAt, JS.floor. cbv zeta.
    rewrite Hq, floor_quotient by lia.
    apply rem_nonneg; [apply Z.div_pos; lia | lia]. }
  split; [apply Hat; exact Htime|]. split; [exact Hq|].
  rewrite !Hat by nia.
  rewrite Z.div_add by lia. rewrite Z.add_mod, Z.mod_same, Z.add_0_r, Z.mod_mod by lia.
  reflexivity.
Qed.

Lemma preview_frame_schedule_witness :
  frameIndexAt (mkConfig 2 2 4 10 1 None true DirRow) (inject_Z 730) = (730 / (1000 / 10)) mod 4.
Proof.
  apply (preview_frame_schedule (mkConfig 2 2 4 10 1 None true DirRow) 730);
    [simpl; lia | reflexivity | simpl; lia | lia].
Defined.



(** ** ConnectionLine *)

(** X28. The control points of the connection keep the height of their end
    of the line.  Whichever side the end is on, the first lies at
    [start.x + |end.x - start.x| * 0.5], to the right of the start by half
    the horizontal distance, and the second at
    [end.x - |end.x - start.x| * 0.5], to the left of the end by as much:
    the curve leaves the start rightwards and reaches the end from the
    left.  When the end is to the right of the start both control points
    lie between the two ends; when it is to the left, the first lies right
    of both ends and the second left of both. *)
Theorem connection_control_points (start finish : Position) :
  let cp := connectionControlPoints start finish in
  pos_y (fst cp) = pos_y start /\ pos_y (snd cp) = pos_y finish /\
  (pos_x (fst cp) == pos_x start + Qabs (pos_x finish - pos_x start) * 0.5)%Q /\
  (pos_x (snd cp) == pos_x finish - Qabs (pos_x finish - pos_x start) * 0.5)%Q /\
  (pos_x (fst cp) - pos_x start == Qabs (pos_x finish - pos_x start) / 2)%Q /\
  (pos_x finish - pos_x (snd cp) == Qabs (pos_x finish - pos_x start) / 2)%Q /\
  (pos_x start <= pos_x (fst cp))%Q /\ (pos_x (snd cp) <= pos_x finish)%Q /\
  (pos_x start <= pos_x finish ->
   pos_x (fst cp) <= pos_x finish /\ pos_x start <= pos_x (snd cp))%Q /\
  (pos_x finish < pos_x start ->
   pos_x (fst cp) - pos_x start == (pos_x start - pos_x finish) / 2 /\
   pos_x finish - pos_x (snd cp) == (pos_x start - pos_x finish) / 2 /\
   pos_x start < pos_x (fst cp) /\ pos_x (snd cp) < pos_x finish)%Q.
Proof.
  cbv zeta. unfold connectionControlPoints. cbn [fst snd pos_x pos_y].
  pose proof (Qabs_nonneg (pos_x finish - pos_x start)) as Hdist.
  split; [reflexivity|]. split; [reflexivity|].
  split; [reflexivity|]. split; [reflexivity|].
  set (dist := Qabs (pos_x finish - pos_x start)) in *.
  assert (Hhalf : (dist * 0.5 == dist / 2)%Q) by (unfold Qdiv; apply Qmult_comp; reflexivity).
  split; [rewrite Hhalf; ring|]. split; [rewrite Hhalf; ring|].
  split; [lra|]. split; [lra|]. split.
  - intros Hle.
    assert (Habs : (dist == pos_x finish - pos_x start)%Q)
      by (apply Qabs_pos; lra).
    lra.
  - intros Hlt.
    assert (Habs : (dist == - (pos_x finish - pos_x start))%Q)
      by (apply Qabs_neg; lra).
    repeat split; try lra.
    all: rewrite Hhalf, Habs; field.
Qed.

Example connection_backwards :
  connectionControlPoints (mkPosition 300 40) (mkPosition 100 90)
  = (mkPosition (300 + Qabs (100 - 300) * 0.5) 40,
     mkPosition (100 - Qabs (100 - 300) * 0.5) 90)
  /\ (300 + Qabs (100 - 300) * 0.5 == 400)%Q
  /\ (100 - Qabs (100 - 300) * 0.5 == 0)%Q.
Proof. split; [reflexivity|]. split; reflexivity. Qed.
